(** * pastebinapi: the slug-indexed record store and the paste round trip

    A shallow embedding of [server.js]: the three request handlers
    ([POST /api/paste], [GET /paste/:slug], [GET /raw/:slug]), the record
    store behind [readDB]/[writeDB], and the pieces of the JavaScript
    run time the handlers lean on (strings as UTF-16 code units,
    [String.prototype.trim], [Buffer.from(s, 'utf8')],
    [buffer.toString('utf8')], property lookup on a parsed JSON object). *)

From Stdlib Require Import ZArith List String Ascii Bool Lia.
From stdpp Require Import base option list gmap.
Import ListNotations.

Local Open Scope Z_scope.

(** ** JavaScript strings and buffers *)

(** A JavaScript string is a sequence of UTF-16 code units, each in
    [0, 0xFFFF]; a [Buffer] is a sequence of bytes, each in [0, 0xFF]. *)
Abbreviation jsstring := (list Z).
Abbreviation buffer := (list Z).

Module JS.

(** An ASCII literal of the source, as code units. *)
Definition lit (s : string) : jsstring :=
  map (fun a => Z.of_nat (nat_of_ascii a)) (list_ascii_of_string s).

(** Truthiness of a string: only the empty string is falsy. *)
Definition truthy (s : jsstring) : bool :=
  match s with [] => false | _ :: _ => true end.

(** [a || b] where [a] may be [undefined]. *)
Definition or_else (a : option jsstring) (b : jsstring) : jsstring :=
  match a with
  | Some s => if truthy s then s else b
  | None => b
  end.

(** [a ?? b]: only [undefined] (and [null]) give way to [b]. *)
Definition nullish (a : option jsstring) (b : jsstring) : jsstring :=
  match a with Some s => s | None => b end.

(** The code units [trim] strips: WhiteSpace and LineTerminator of
    ECMA-262 (TAB, LF, VT, FF, CR, SP, NBSP, the Zs category, LS, PS and
    the byte order mark). *)
Definition is_space (c : Z) : bool :=
  (9 <=? c) && (c <=? 13)
  || (c =? 32) || (c =? 160) || (c =? 5760)
  || (8192 <=? c) && (c <=? 8202)
  || (c =? 8232) || (c =? 8233) || (c =? 8239) || (c =? 8287)
  || (c =? 12288) || (c =? 65279).

Fixpoint trim_start (s : jsstring) : jsstring :=
  match s with
  | c :: r => if is_space c then trim_start r else s
  | [] => []
  end.

Definition trim_end (s : jsstring) : jsstring :=
  rev (trim_start (rev s)).

(** [String.prototype.trim]. *)
Definition trim (s : jsstring) : jsstring := trim_end (trim_start s).

(** *** Surrogates *)

Definition is_high (c : Z) : bool := (55296 <=? c) && (c <=? 56319).
Definition is_low (c : Z) : bool := (56320 <=? c) && (c <=? 57343).
Definition is_unit (c : Z) : bool := (0 <=? c) && (c <=? 65535).

(** A string is well formed when every code unit is in range and every
    surrogate is half of a pair: exactly the strings UTF-8 can
    represent. *)
Fixpoint well_formed (s : jsstring) : bool :=
  match s with
  | [] => true
  | c :: r =>
      if is_high c then
        match r with
        | d :: r' => is_low d && well_formed r'
        | [] => false
        end
      else if is_low c then false
      else is_unit c && well_formed r
  end.

(** The replacement character U+FFFD and its UTF-8 form. *)
Definition replacement : Z := 65533.
Definition replacement_bytes : buffer := [239; 191; 189].

(** UTF-8 form of one scalar value. *)
Definition encode_scalar (c : Z) : buffer :=
  if c <? 128 then [c]
  else if c <? 2048 then [192 + c / 64; 128 + c mod 64]
  else if c <? 65536 then
    [224 + c / 4096; 128 + (c / 64) mod 64; 128 + c mod 64]
  else
    [240 + c / 262144; 128 + (c / 4096) mod 64;
     128 + (c / 64) mod 64; 128 + c mod 64].

(** A scalar value: a code point that is not a surrogate. *)
Definition is_scalar (c : Z) : Prop :=
  0 <= c < 55296 \/ 57344 <= c < 1114112.

(** The scalar value a surrogate pair stands for. *)
Definition pair_scalar (hi lo : Z) : Z :=
  65536 + (hi - 55296) * 1024 + (lo - 56320).

(** [Buffer.from(s, 'utf8')]: a lone surrogate becomes U+FFFD. *)
Fixpoint utf8_encode (s : jsstring) : buffer :=
  match s with
  | [] => []
  | c :: r =>
      if is_high c then
        match r with
        | d :: r' =>
            if is_low d then encode_scalar (pair_scalar c d) ++ utf8_encode r'
            else replacement_bytes ++ utf8_encode r
        | [] => replacement_bytes
        end
      else if is_low c then replacement_bytes ++ utf8_encode r
      else encode_scalar c ++ utf8_encode r
  end.

(** Code units of one scalar value. *)
Definition units_of_scalar (c : Z) : jsstring :=
  if c <? 65536 then [c]
  else [55296 + (c - 65536) / 1024; 56320 + (c - 65536) mod 1024].

(** State of the UTF-8 decoder: between characters, or inside one, with
    the value so far, the continuation bytes still due and the range
    the next byte must fall in. *)
Inductive decoder :=
  | Idle
  | Pending (acc : Z) (due : nat) (lo hi : Z).

Definition in_range (lo hi b : Z) : bool := (lo <=? b) && (b <=? hi).

(** A byte read between characters. *)
Definition decode_lead (b : Z) : jsstring * decoder :=
  if in_range 0 127 b then ([b], Idle)
  else if in_range 194 223 b then ([], Pending (b - 192) 0 128 191)
  else if in_range 224 239 b then
    ([], Pending (b - 224) 1
           (if b =? 224 then 160 else 128) (if b =? 237 then 159 else 191))
  else if in_range 240 244 b then
    ([], Pending (b - 240) 2
           (if b =? 240 then 144 else 128) (if b =? 244 then 143 else 191))
  else ([replacement], Idle).

(** One byte: what is emitted and the next state. A byte that cannot
    continue the pending character ends it with U+FFFD and is read again
    as a lead byte. *)
Definition decode_byte (st : decoder) (b : Z) : jsstring * decoder :=
  match st with
  | Idle => decode_lead b
  | Pending acc due lo hi =>
      if in_range lo hi b then
        let acc' := acc * 64 + (b - 128) in
        match due with
        | O => (units_of_scalar acc', Idle)
        | S due' => ([], Pending acc' due' 128 191)
        end
      else
        let '(out, st') := decode_lead b in (replacement :: out, st')
  end.

Fixpoint decode_from (st : decoder) (bs : buffer) : jsstring :=
  match bs with
  | [] => match st with Idle => [] | Pending _ _ _ _ => [replacement] end
  | b :: r => let '(out, st') := decode_byte st b in out ++ decode_from st' r
  end.

(** [buffer.toString('utf8')]: malformed input decodes to U+FFFD, one
    per maximal ill-formed prefix. *)
Definition utf8_decode (bs : buffer) : jsstring := decode_from Idle bs.

(** [buffer.toString('hex')]. *)
Definition hex_digit (n : Z) : Z := if n <? 10 then 48 + n else 87 + n.

Definition hex_encode (bs : buffer) : jsstring :=
  flat_map (fun b => [hex_digit (b / 16); hex_digit (b mod 16)]) bs.

End JS.

(** ** The server *)

Module Server.
Import JS.

(** *** Data *)

(** One entry of [db.json]: the object literal the create handler
    stores under the slug. *)
Record paste := Paste {
  filename : jsstring;
  language : jsstring;
  megaLink : jsstring;
  createdAt : jsstring;
}.

(** What is on disk and in the MEGA account. [db_file] is the parsed
    content of [db.json], [mega_files] the uploaded files of the
    account (name and bytes) and [mega_links] the public links issued
    so far, each with the bytes it dereferences to. *)
Record world := World {
  db_file : gmap jsstring paste;
  mega_files : list (jsstring * buffer);
  mega_links : gmap jsstring buffer;
}.

(** A JavaScript [Error]. *)
Record js_error := JsError {
  name : jsstring;
  message : jsstring;
}.

(** What the handlers do not decide: the bytes [crypto.randomBytes]
    draws, the clock, and whether MEGA answers. *)
Record chance := Chance {
  randomBytes : buffer;
  date : jsstring;
  upload_err : option js_error;
  link_res : js_error + jsstring;
  download_fails : bool;
}.

(** [process.env]. *)
Record env := Env {
  BASE_URL : option jsstring;
  PORT_var : option jsstring;
}.

(** The fields of [req.body] the create handler reads, each absent or
    a text field, and the buffer of [req.file] when a file part was
    uploaded. *)
Record request := Request {
  body_content : option jsstring;
  body_filename : option jsstring;
  body_language : option jsstring;
  body_expire : option jsstring;
  file : option buffer;
}.

(** The JSON bodies of the create handler: [{ ok: true, slug, url,
    megaUrl }] and [{ ok: false, error }]. *)
Inductive json :=
  | JCreated (slug url megaUrl : jsstring)
  | JFailed (error : jsstring).


(** The locals handed to the [paste] template. *)
Record locals := Locals {
  l_slug : jsstring;
  l_text : jsstring;
  l_filename : option jsstring;
  l_language : option jsstring;
  l_megaLink : option jsstring;
}.

(** What a handler answers: [res.status(s).json(j)],
    [res.status(s).send(text)] with the content type set before it (if
    any), [res.render(view, locals)] and [res.redirect(target)]. *)
Inductive response :=
  | Json (status : Z) (body : json)
  | Send (status : Z) (content_type : option jsstring) (text : jsstring)
  | Render (view : jsstring) (data : locals)
  | Redirect (target : option jsstring).

(** What a handler does to the outside, in order. *)
Inductive event :=
  | EReadDB
  | EWriteDB
  | EUpload (name : jsstring) (data : buffer)
  | ELink
  | EDownload (link : jsstring).

(** *** Effects *)

(** A handler reads and writes the world and leaves a trace. *)
Definition M (A : Type) : Type := world -> A * world * list event.

Definition ret {A} (a : A) : M A := fun w => (a, w, []).

Definition bind {A B} (m : M A) (f : A -> M B) : M B :=
  fun w =>
    let '(a, w1, t1) := m w in
    let '(b, w2, t2) := f a w1 in
    (b, w2, t1 ++ t2).

#[global] Instance M_ret : MRet M := @ret.
#[global] Instance M_bind : MBind M := fun A B f m => bind m f.

Definition answer {A} (r : A * world * list event) : A := r.1.1.
Definition after {A} (r : A * world * list event) : world := r.1.2.
Definition trace {A} (r : A * world * list event) : list event := r.2.

(** [readDB] and [writeDB]: the whole document, every time. *)
Definition readDB : M (gmap jsstring paste) :=
  fun w => (db_file w, w, [EReadDB]).

Definition writeDB (db : gmap jsstring paste) : M unit :=
  fun w =>
    (tt,
     {| db_file := db; mega_files := mega_files w;
        mega_links := mega_links w |},
     [EWriteDB]).

(** [storage.upload(name, data, cb)]: [cb] gets the error, or the file
    now in the account. *)
Definition storage_upload (c : chance) (name : jsstring) (data : buffer)
  : M (js_error + jsstring * buffer) :=
  fun w =>
    match upload_err c with
    | Some err => (inl err, w, [EUpload name data])
    | None =>
        (inr (name, data),
         {| db_file := db_file w;
            mega_files := (name, data) :: mega_files w;
            mega_links := mega_links w |},
         [EUpload name data])
    end.

(** [file.link(cb)]: [cb] gets the error, or a public link that from
    now on dereferences to the bytes of the file. *)
Definition file_link (c : chance) (f : jsstring * buffer)
  : M (js_error + jsstring) :=
  fun w =>
    match link_res c with
    | inl err => (inl err, w, [ELink])
    | inr link =>
        (inr link,
         {| db_file := db_file w; mega_files := mega_files w;
            mega_links := <[link := f.2]> (mega_links w) |},
         [ELink])
    end.

(** [File.fromURL(url)] throws on [undefined] before anything is
    fetched. *)
Definition File_fromURL (url : option jsstring) : option jsstring := url.

(** [file.loadAttributes()] then [file.downloadBuffer()]: the bytes
    behind the link, or a rejection (network, unknown link). *)
Definition download (c : chance) (link : jsstring) : M (option buffer) :=
  fun w =>
    (if download_fails c then None else mega_links w !! link,
     w, [EDownload link]).

(** *** Property lookup on the parsed document *)

(** [JSON.parse] builds ordinary objects, so [db[slug]] also sees what
    [Object.prototype] provides. *)
Definition object_prototype : list jsstring :=
  map lit
    ["constructor"; "__proto__"; "hasOwnProperty"; "isPrototypeOf";
     "propertyIsEnumerable"; "toLocaleString"; "toString"; "valueOf";
     "__defineGetter__"; "__defineSetter__"; "__lookupGetter__";
     "__lookupSetter__"]%string.

(** The value of [db[slug]]: a stored record, a member of
    [Object.prototype], or [undefined]. *)
Inductive property :=
  | Own (r : paste)
  | Inherited
  | Undefined.

Definition get (db : gmap jsstring paste) (slug : jsstring) : property :=
  match db !! slug with
  | Some r => Own r
  | None =>
      if bool_decide (slug ∈ object_prototype) then Inherited else Undefined
  end.

(** [!record] is true only of [undefined]. *)
Definition falsy (p : property) : bool :=
  match p with Undefined => true | _ => false end.

(** [record.filename], [record.language], [record.megaLink]: functions
    and [Object.prototype] have none of them. *)
Definition field (f : paste -> jsstring) (p : property) : option jsstring :=
  match p with Own r => Some (f r) | _ => None end.

(** *** Create: POST /api/paste *)

(** [String(err)], that is [Error.prototype.toString]. *)
Definition to_string (err : js_error) : jsstring :=
  if truthy (name err) then
    if truthy (message err) then name err ++ lit ": " ++ message err
    else name err
  else message err.

(** [err.message || String(err)]. *)
Definition error_text (err : js_error) : jsstring :=
  if truthy (message err) then message err else to_string err.

(** [process.env.PORT || 3000], as it prints. *)
Definition PORT (e : env) : jsstring := or_else (PORT_var e) (lit "3000").

(** [process.env.BASE_URL || `http://localhost:${PORT}`]. *)
Definition base_url (e : env) : jsstring :=
  or_else (BASE_URL e) (lit "http://localhost:" ++ PORT e).

Definition content (req : request) : jsstring :=
  nullish (body_content req) [].

Definition filenameProvided (req : request) : option jsstring :=
  match body_filename req with
  | Some f =>
      if truthy f && truthy (trim f) then Some (trim f) else None
  | None => None
  end.

Definition language_of (req : request) : jsstring :=
  or_else (body_language req) (lit "text").

Definition expire (req : request) : option jsstring :=
  match body_expire req with
  | Some x => if truthy x then Some x else None
  | None => None
  end.

Definition fileBuffer (req : request) : buffer :=
  match file req with
  | Some b => b
  | None => utf8_encode (or_else (Some (content req)) [])
  end.

Definition slug_of (c : chance) : jsstring := hex_encode (randomBytes c).

Definition filename_of (c : chance) (req : request) : jsstring :=
  or_else (filenameProvided req)
    (slug_of c ++ lit "." ++
     (if bool_decide (language_of req = lit "text") then lit "txt"
      else language_of req)).

(** The handler. With text fields nothing throws before the upload, so
    the outer [catch] is never entered, and [storageReady] only decides
    a warning on the console: both are left out. The promise rejects on
    an upload or a link error and the [catch] after it answers 500; the
    document is read and written inside the link callback. *)
Definition create (e : env) (c : chance) (req : request) : M response :=
  let language := language_of req in
  let expire := expire req in
  let slug := slug_of c in
  let filename := filename_of c req in
  uploaded ← storage_upload c filename (fileBuffer req);
  match uploaded with
  | inl err => ret (Json 500 (JFailed (error_text err)))
  | inr f =>
      linked ← file_link c f;
      match linked with
      | inl err2 => ret (Json 500 (JFailed (error_text err2)))
      | inr link =>
          db ← readDB;
          writeDB
            (<[slug := {| filename := filename; language := language;
                          megaLink := link; createdAt := date c |}]> db);;
          ret (Json 200
                 (JCreated slug (base_url e ++ lit "/paste/" ++ slug) link))
      end
  end.

(** *** View: GET /paste/:slug *)

Definition view (c : chance) (slug : jsstring) : M response :=
  db ← readDB;
  let record := get db slug in
  if falsy record then ret (Send 404 None (lit "Paste not found"))
  else
    match File_fromURL (field megaLink record) with
    | None => ret (Redirect (field megaLink record))
    | Some link =>
        downloaded ← download c link;
        match downloaded with
        | Some buf =>
            let text := utf8_decode buf in
            ret (Render (lit "paste")
                   {| l_slug := slug; l_text := text;
                      l_filename := field filename record;
                      l_language := field language record;
                      l_megaLink := field megaLink record |})
        | None => ret (Redirect (field megaLink record))
        end
    end.

(** *** Raw: GET /raw/:slug *)

Definition raw (c : chance) (slug : jsstring) : M response :=
  db ← readDB;
  let record := get db slug in
  if falsy record then ret (Send 404 None (lit "Not found"))
  else
    match File_fromURL (field megaLink record) with
    | None => ret (Redirect (field megaLink record))
    | Some link =>
        downloaded ← download c link;
        match downloaded with
        | Some buf =>
            ret (Send 200 (Some (lit "text/plain; charset=utf-8"))
                   (utf8_decode buf))
        | None => ret (Redirect (field megaLink record))
        end
    end.

(** *** Requests in sequence *)

Inductive call :=
  | PostPaste (req : request)
  | GetPaste (slug : jsstring)
  | GetRaw (slug : jsstring).

Definition handle (e : env) (c : chance) (k : call) : M response :=
  match k with
  | PostPaste req => create e c req
  | GetPaste slug => view c slug
  | GetRaw slug => raw c slug
  end.

(** The responses to a sequence of requests served one after another,
    and the world they leave. *)
Fixpoint serve (e : env) (ks : list (chance * call)) (w : world)
  : list response * world :=
  match ks with
  | [] => ([], w)
  | (c, k) :: ks' =>
      let r := handle e c k w in
      let '(rs, w') := serve e ks' (after r) in
      (answer r :: rs, w')
  end.

(** The request with its [expire] field dropped. *)
Definition without_expire (req : request) : request :=
  {| body_content := body_content req; body_filename := body_filename req;
     body_language := body_language req; body_expire := None;
     file := file req |}.

(** The request with [content] set to the empty string. *)
Definition with_empty_content (req : request) : request :=
  {| body_content := Some []; body_filename := body_filename req;
     body_language := body_language req; body_expire := body_expire req;
     file := file req |}.


Definition empty_world : world :=
  {| db_file := ∅; mega_files := []; mega_links := ∅ |}.

End Server.

(** ** Concrete requests *)

Module Scenario.
Import JS Server.

Definition local : env := {| BASE_URL := None; PORT_var := None |}.

(** Sixteen bytes as [crypto.randomBytes(16)] may return them. *)
Definition sixteen : buffer :=
  [1; 35; 69; 103; 137; 171; 205; 239; 254; 220; 186; 152; 118; 84; 50; 16].

Definition first_link : jsstring := lit "https://mega.nz/file/aaaa#kkkk".
Definition second_link : jsstring := lit "https://mega.nz/file/bbbb#mmmm".

(** MEGA answers, and the link it issues. *)
Definition lucky (link : jsstring) : chance :=
  {| randomBytes := sixteen; date := lit "2024-05-01T10:00:00.000Z";
     upload_err := None; link_res := inr link; download_fails := false |}.

(** Another draw, and MEGA answers. *)
Definition elsewhere (link : jsstring) : chance :=
  {| randomBytes :=
       [16; 50; 84; 118; 152; 186; 220; 254; 239; 205; 171; 137; 103; 69; 35; 1];
     date := lit "2024-05-01T10:10:00.000Z";
     upload_err := None; link_res := inr link; download_fails := false |}.

(** MEGA refuses the upload. *)
Definition refused : chance :=
  {| randomBytes := sixteen; date := lit "2024-05-01T10:00:00.000Z";
     upload_err := Some {| name := lit "Error"; message := lit "EAGAIN" |};
     link_res := inr first_link; download_fails := false |}.

(** MEGA cannot be reached when the paste is read. *)
Definition offline : chance :=
  {| randomBytes := sixteen; date := lit "2024-05-01T10:05:00.000Z";
     upload_err := None; link_res := inr first_link; download_fails := true |}.

(** [content=hello world], nothing else. *)
Definition hello : request :=
  {| body_content := Some (lit "hello world"); body_filename := None;
     body_language := None; body_expire := None; file := None |}.

(** A second paste, with a name, a language and an expiry. *)
Definition script : request :=
  {| body_content := Some (lit "print(1)"); body_filename := Some (lit " a.py ");
     body_language := Some (lit "python"); body_expire := Some (lit "1h");
     file := None |}.


(** A request with no field at all. *)
Definition bare : request :=
  {| body_content := None; body_filename := None; body_language := None;
     body_expire := None; file := None |}.

(** A view while MEGA is away, a second paste under another slug and a
    raw fetch of an inherited name. *)
Definition afterwards : list (chance * call) :=
  [(offline, GetPaste (lit "0123456789abcdeffedcba9876543210"));
   (elsewhere second_link, PostPaste script);
   (lucky first_link, GetRaw (lit "constructor"))].

(** The world after [hello] was pasted into an empty one. *)
Definition pasted : world := after (create local (lucky first_link) hello empty_world).

End Scenario.

(** *** Create when the document cannot be read or written *)

Module Io.
Import JS Server.

(** How [fs.writeFileSync] ends: the file written; the open refused and
    the file as before; or the write broken off and the file cut
    short. *)
Inductive write_outcome := Written | Refused | Torn.

(** What the disk does to one request. *)
Record disk_chance := DiskChance {
  read_fails : bool;
  write_res : write_outcome;
}.

(** The records [db.json] holds, or [None] when the file is missing or
    is not JSON text, and the MEGA account. *)
Record machine := Machine {
  document : option (gmap jsstring paste);
  uploaded : list (jsstring * buffer);
  issued : gmap jsstring buffer;
}.

(** A world whose document is in order. *)
Definition machine_of (w : world) : machine :=
  {| document := Some (db_file w); uploaded := mega_files w;
     issued := mega_links w |}.

(** [readDB()]: [None] when [readFileSync] or [JSON.parse] throws. *)
Definition readDB_io (dc : disk_chance) (m : machine)
  : option (gmap jsstring paste) :=
  if read_fails dc then None else document m.

(** [writeDB(db)]: whether the call returned, and the machine after
    it. A file cut short is not JSON text any more. *)
Definition writeDB_io (dc : disk_chance) (db : gmap jsstring paste) (m : machine)
  : bool * machine :=
  match write_res dc with
  | Written =>
      (true, {| document := Some db; uploaded := uploaded m; issued := issued m |})
  | Refused => (false, m)
  | Torn =>
      (false, {| document := None; uploaded := uploaded m; issued := issued m |})
  end.

(** How the promise of the handler ends. An exception thrown inside the
    [file.link] callback is thrown to megajs, outside the executor of
    the promise and outside the [try] block: neither [resolve] nor
    [reject] is called. *)
Inductive promise :=
  | Resolved (link : jsstring)
  | Rejected (err : js_error)
  | Unsettled.

(** What [.then] and [.catch] send: nothing for a promise that never
    settles. *)
Definition respond (e : env) (slug : jsstring) (p : promise) : option response :=
  match p with
  | Resolved link =>
      Some (Json 200 (JCreated slug (base_url e ++ lit "/paste/" ++ slug) link))
  | Rejected err => Some (Json 500 (JFailed (error_text err)))
  | Unsettled => None
  end.

(** The create handler with the disk as it is: the answer, if any, the
    machine after the request and what was done. *)
Definition create_io
    (e : env) (c : chance) (dc : disk_chance) (req : request) (m : machine)
  : option response * machine * list event :=
  let language := language_of req in
  let slug := slug_of c in
  let filename := filename_of c req in
  let data := fileBuffer req in
  match upload_err c with
  | Some err => (respond e slug (Rejected err), m, [EUpload filename data])
  | None =>
      let m1 := {| document := document m;
                   uploaded := (filename, data) :: uploaded m;
                   issued := issued m |} in
      match link_res c with
      | inl err2 =>
          (respond e slug (Rejected err2), m1, [EUpload filename data; ELink])
      | inr link =>
          let m2 := {| document := document m1; uploaded := uploaded m1;
                       issued := <[link := data]> (issued m1) |} in
          match readDB_io dc m2 with
          | None =>
              (respond e slug Unsettled, m2,
               [EUpload filename data; ELink; EReadDB])
          | Some db =>
              let '(returned, m3) :=
                writeDB_io dc
                  (<[slug := {| filename := filename; language := language;
                                megaLink := link; createdAt := date c |}]> db)
                  m2 in
              (respond e slug (if returned then Resolved link else Unsettled),
               m3, [EUpload filename data; ELink; EReadDB; EWriteDB])
          end
      end
  end.


(** A disk that does as it is told, and a machine whose [db.json] was
    removed after the start. *)
Definition calm : disk_chance := {| read_fails := false; write_res := Written |}.


End Io.

(** ** Further notions, for properties beyond the claims *)

Module Text.
Import JS.

(** A string of code units, a buffer of bytes. *)
Definition units (s : jsstring) : Prop := Forall (fun c => 0 <= c <= 65535) s.
Definition bytes (b : buffer) : Prop := Forall (fun x => 0 <= x <= 255) b.

(** [String.prototype.toWellFormed]: the string with every unpaired
    surrogate replaced by U+FFFD. *)
Fixpoint to_well_formed (s : jsstring) : jsstring :=
  match s with
  | [] => []
  | c :: r =>
      if is_high c then
        match r with
        | d :: r' =>
            if is_low d then c :: d :: to_well_formed r'
            else replacement :: to_well_formed r
        | [] => [replacement]
        end
      else if is_low c then replacement :: to_well_formed r
      else c :: to_well_formed r
  end.

(** Whatever continuation bytes the decoder still accepts in this
    state, the character they complete is a scalar value. *)
Fixpoint completes (acc : Z) (due : nat) (lo hi : Z) : Prop :=
  match due with
  | O => forall b, lo <= b <= hi -> is_scalar (acc * 64 + (b - 128))
  | S due' =>
      forall b, lo <= b <= hi -> completes (acc * 64 + (b - 128)) due' 128 191
  end.

Definition sound (st : decoder) : Prop :=
  match st with
  | Idle => True
  | Pending acc due lo hi => completes acc due lo hi
  end.

(** A string of blanks, as [trim] sees them. *)
Definition blank (s : jsstring) : Prop := Forall (fun c => is_space c = true) s.

(** The digits [toString('hex')] writes. *)
Definition is_hex_digit (c : Z) : bool :=
  (48 <=? c) && (c <=? 57) || (97 <=? c) && (c <=? 102).

Definition hex_string (s : jsstring) : bool := forallb is_hex_digit s.

End Text.

(** *** The document on disk *)

Module Json.
Import JS Server.

(** What [JSON.parse] returns. A number is kept as it is written; the
    members of an object are in the order of their first appearance. *)
#[local] Unset Elimination Schemes.
Inductive value :=
  | VNull
  | VBool (b : bool)
  | VNumber (lexeme : jsstring)
  | VString (s : jsstring)
  | VArray (items : list value)
  | VObject (members : list (jsstring * value)).
#[local] Set Elimination Schemes.

(** **** [JSON.stringify(db, null, 2)] *)

Definition hex4 (c : Z) : jsstring :=
  [hex_digit (c / 4096); hex_digit ((c / 256) mod 16);
   hex_digit ((c / 16) mod 16); hex_digit (c mod 16)].

(** [\uXXXX]. *)
Definition unicode_escape (c : Z) : jsstring := 92 :: 117 :: hex4 c.

(** One code unit that is not a surrogate, as QuoteJSONString writes
    it. *)
Definition quote_unit (c : Z) : jsstring :=
  if c =? 8 then [92; 98]
  else if c =? 9 then [92; 116]
  else if c =? 10 then [92; 110]
  else if c =? 12 then [92; 102]
  else if c =? 13 then [92; 114]
  else if c =? 34 then [92; 34]
  else if c =? 92 then [92; 92]
  else if c <? 32 then unicode_escape c
  else [c].

(** The inside of a quoted string: a surrogate pair is written as it
    is, an unpaired surrogate as an escape. *)
Fixpoint quote_units (s : jsstring) : jsstring :=
  match s with
  | [] => []
  | c :: r =>
      if is_high c then
        match r with
        | d :: r' =>
            if is_low d then c :: d :: quote_units r'
            else unicode_escape c ++ quote_units r
        | [] => unicode_escape c
        end
      else if is_low c then unicode_escape c ++ quote_units r
      else quote_unit c ++ quote_units r
  end.

Definition quote (s : jsstring) : jsstring := 34 :: quote_units s ++ [34].

Fixpoint join (sep : jsstring) (parts : list jsstring) : jsstring :=
  match parts with
  | [] => []
  | [p] => p
  | p :: rest => p ++ sep ++ join sep rest
  end.

(** An object whose members are already written, at the given
    indentation, with a gap of two spaces. *)
Definition stringify_object
    (indent : jsstring) (members : list (jsstring * jsstring)) : jsstring :=
  match members with
  | [] => [123; 125]
  | _ =>
      [123; 10] ++ indent ++ [32; 32] ++
      join ([44; 10] ++ indent ++ [32; 32])
        (map (fun m => quote m.1 ++ [58; 32] ++ m.2) members) ++
      [10] ++ indent ++ [125]
  end.

Definition stringify_record (r : paste) : jsstring :=
  stringify_object [32; 32]
    [(lit "filename", quote (filename r));
     (lit "language", quote (language r));
     (lit "megaLink", quote (megaLink r));
     (lit "createdAt", quote (createdAt r))].

(** [JSON.stringify(db, null, 2)] for a [db] whose properties are
    [entries], in the order the engine lists them. *)
Definition JSON_stringify (entries : list (jsstring * paste)) : jsstring :=
  stringify_object []
    (map (fun kr => (kr.1, stringify_record kr.2)) entries).

(** **** [JSON.parse] *)

Definition is_ws (c : Z) : bool :=
  (c =? 32) || (c =? 9) || (c =? 10) || (c =? 13).

Fixpoint skip_ws (s : jsstring) : jsstring :=
  match s with
  | c :: r => if is_ws c then skip_ws r else s
  | [] => []
  end.

Definition hex_value (c : Z) : option Z :=
  if (48 <=? c) && (c <=? 57) then Some (c - 48)
  else if (97 <=? c) && (c <=? 102) then Some (c - 87)
  else if (65 <=? c) && (c <=? 70) then Some (c - 55)
  else None.

(** The character a one-letter escape stands for. *)
Definition unescape (c : Z) : option Z :=
  if c =? 34 then Some 34
  else if c =? 92 then Some 92
  else if c =? 47 then Some 47
  else if c =? 98 then Some 8
  else if c =? 102 then Some 12
  else if c =? 110 then Some 10
  else if c =? 114 then Some 13
  else if c =? 116 then Some 9
  else None.

(** A string, from after its opening quote: its characters and what
    follows the closing quote. *)
Fixpoint parse_string (s : jsstring) : option (jsstring * jsstring) :=
  match s with
  | [] => None
  | c :: r =>
      if c =? 34 then Some ([], r)
      else if c =? 92 then
        match r with
        | [] => None
        | x :: r1 =>
            if x =? 117 then
              match r1 with
              | h1 :: h2 :: h3 :: h4 :: r2 =>
                  match hex_value h1, hex_value h2, hex_value h3, hex_value h4 with
                  | Some a, Some b, Some c', Some d =>
                      match parse_string r2 with
                      | Some (t, rest) =>
                          Some ((((a * 16 + b) * 16 + c') * 16 + d) :: t, rest)
                      | None => None
                      end
                  | _, _, _, _ => None
                  end
              | _ => None
              end
            else
              match unescape x with
              | Some u =>
                  match parse_string r1 with
                  | Some (t, rest) => Some (u :: t, rest)
                  | None => None
                  end
              | None => None
              end
        end
      else if c <? 32 then None
      else
        match parse_string r with
        | Some (t, rest) => Some (c :: t, rest)
        | None => None
        end
  end.

Definition is_digit (c : Z) : bool := (48 <=? c) && (c <=? 57).

Fixpoint digits (s : jsstring) : jsstring * jsstring :=
  match s with
  | c :: r =>
      if is_digit c then let '(d, rest) := digits r in (c :: d, rest)
      else ([], s)
  | [] => ([], [])
  end.

(** At least one digit. *)
Definition digits1 (s : jsstring) : option (jsstring * jsstring) :=
  match digits s with
  | ([], _) => None
  | (d, rest) => Some (d, rest)
  end.

(** A number: its lexeme and what follows. *)
Definition parse_number (s : jsstring) : option (jsstring * jsstring) :=
  let '(sign, s1) :=
    match s with
    | c :: r => if c =? 45 then ([45], r) else ([], s)
    | [] => ([], s)
    end in
  '(int, s2) ←
    match s1 with
    | c :: r =>
        if c =? 48 then Some ([48], r)
        else if is_digit c then Some (c :: (digits r).1, (digits r).2)
        else None
    | [] => None
    end;
  '(frac, s3) ←
    match s2 with
    | c :: r =>
        if c =? 46 then '(d, rest) ← digits1 r; Some (46 :: d, rest)
        else Some ([], s2)
    | [] => Some ([], s2)
    end;
  '(exp, s4) ←
    match s3 with
    | c :: r =>
        if (c =? 101) || (c =? 69) then
          let '(esign, r') :=
            match r with
            | x :: r0 => if (x =? 43) || (x =? 45) then ([x], r0) else ([], r)
            | [] => ([], r)
            end in
          '(d, rest) ← digits1 r'; Some (c :: esign ++ d, rest)
        else Some ([], s3)
    | [] => Some ([], s3)
    end;
  Some (sign ++ int ++ frac ++ exp, s4).

(** What follows the given word, if the text begins with it. *)
Fixpoint after_word (word s : jsstring) : option jsstring :=
  match word, s with
  | [], _ => Some s
  | w :: word', c :: r => if c =? w then after_word word' r else None
  | _ :: _, [] => None
  end.

(** [obj[k] = v] while an object is read: a key seen before keeps its
    place and takes the new value. *)
Fixpoint set_member (ms : list (jsstring * value)) (k : jsstring) (v : value)
  : list (jsstring * value) :=
  match ms with
  | [] => [(k, v)]
  | (k', v') :: r =>
      if bool_decide (k' = k) then (k', v) :: r
      else (k', v') :: set_member r k v
  end.

Definition object_of (raw : list (jsstring * value)) : value :=
  VObject (fold_left (fun ms kv => set_member ms kv.1 kv.2) raw []).

(** A value with the white space before it; the members of an object
    from its first key to its closing brace; the items of an array from
    its first item to its closing bracket. [fuel] bounds the calls in
    progress. *)
Fixpoint parse_value (fuel : nat) (s : jsstring) : option (value * jsstring) :=
  match fuel with
  | O => None
  | S fuel' =>
      match skip_ws s with
      | [] => None
      | c :: r =>
          if c =? 34 then
            '(t, rest) ← parse_string r; Some (VString t, rest)
          else if c =? 123 then
            match skip_ws r with
            | c' :: r' =>
                if c' =? 125 then Some (VObject [], r')
                else '(ms, rest) ← parse_members fuel' r; Some (object_of ms, rest)
            | [] => None
            end
          else if c =? 91 then
            match skip_ws r with
            | c' :: r' =>
                if c' =? 93 then Some (VArray [], r')
                else '(vs, rest) ← parse_items fuel' r; Some (VArray vs, rest)
            | [] => None
            end
          else if c =? 116 then
            rest ← after_word [114; 117; 101] r; Some (VBool true, rest)
          else if c =? 102 then
            rest ← after_word [97; 108; 115; 101] r; Some (VBool false, rest)
          else if c =? 110 then
            rest ← after_word [117; 108; 108] r; Some (VNull, rest)
          else
            '(lexeme, rest) ← parse_number (c :: r); Some (VNumber lexeme, rest)
      end
  end
with parse_members (fuel : nat) (s : jsstring)
  : option (list (jsstring * value) * jsstring) :=
  match fuel with
  | O => None
  | S fuel' =>
      match skip_ws s with
      | c :: r =>
          if c =? 34 then
            '(k, r1) ← parse_string r;
            match skip_ws r1 with
            | c1 :: r2 =>
                if c1 =? 58 then
                  '(v, r3) ← parse_value fuel' r2;
                  match skip_ws r3 with
                  | c3 :: r4 =>
                      if c3 =? 44 then
                        '(ms, rest) ← parse_members fuel' r4;
                        Some ((k, v) :: ms, rest)
                      else if c3 =? 125 then Some ([(k, v)], r4)
                      else None
                  | [] => None
                  end
                else None
            | [] => None
            end
          else None
      | [] => None
      end
  end
with parse_items (fuel : nat) (s : jsstring)
  : option (list value * jsstring) :=
  match fuel with
  | O => None
  | S fuel' =>
      '(v, r1) ← parse_value fuel' s;
      match skip_ws r1 with
      | c :: r2 =>
          if c =? 44 then
            '(vs, rest) ← parse_items fuel' r2; Some (v :: vs, rest)
          else if c =? 93 then Some ([v], r2)
          else None
      | [] => None
      end
  end.

(** [JSON.parse(text)]; [None] is a SyntaxError. *)
Definition JSON_parse (text : jsstring) : option value :=
  '(v, rest) ← parse_value (S (length text)) text;
  match skip_ws rest with
  | [] => Some v
  | _ :: _ => None
  end.

(** **** The file *)

(** [db.json]: its bytes, or nothing when the file does not exist. *)
Abbreviation disk := (option buffer).

(** [fs.writeFileSync(DB_FILE, JSON.stringify(db, null, 2))]. *)
Definition writeDB_file (entries : list (jsstring * paste)) : disk :=
  Some (utf8_encode (JSON_stringify entries)).

(** [JSON.parse(fs.readFileSync(DB_FILE, 'utf8'))]; [None] when either
    call throws. *)
Definition readDB_file (d : disk) : option value :=
  b ← d; JSON_parse (utf8_decode b).


(** **** The document as the handlers see it *)

Definition document_record (r : paste) : value :=
  VObject
    [(lit "filename", VString (filename r));
     (lit "language", VString (language r));
     (lit "megaLink", VString (megaLink r));
     (lit "createdAt", VString (createdAt r))].

(** The object whose properties are [entries]. *)
Definition document (entries : list (jsstring * paste)) : value :=
  VObject (map (fun kr => (kr.1, document_record kr.2)) entries).

Fixpoint member (k : jsstring) (ms : list (jsstring * value)) : option value :=
  match ms with
  | [] => None
  | (k', v) :: r => if bool_decide (k' = k) then Some v else member k r
  end.

Definition string_member (k : string) (ms : list (jsstring * value))
  : option jsstring :=
  match member (lit k) ms with
  | Some (VString s) => Some s
  | _ => None
  end.

(** The record an object stands for, when it has the four fields. *)
Definition record_of_value (v : value) : option paste :=
  match v with
  | VObject ms =>
      f ← string_member "filename" ms;
      l ← string_member "language" ms;
      m ← string_member "megaLink" ms;
      c ← string_member "createdAt" ms;
      Some {| filename := f; language := l; megaLink := m; createdAt := c |}
  | _ => None
  end.

(** The store a document stands for, when all its members are
    records. *)
Definition store_of (v : value) : option (gmap jsstring paste) :=
  match v with
  | VObject ms =>
      foldr
        (fun kv acc =>
           r ← record_of_value kv.2; m ← acc; Some (<[kv.1 := r]> m))
        (Some ∅) ms
  | _ => None
  end.

(** Code units all through a record and through a list of entries. *)
Definition record_units (r : paste) : Prop :=
  Text.units (filename r) /\ Text.units (language r) /\
  Text.units (megaLink r) /\ Text.units (createdAt r).

Definition entries_units (entries : list (jsstring * paste)) : Prop :=
  Forall (fun kr => Text.units kr.1 /\ record_units kr.2) entries.

(** [t] is read as [v] wherever it stands, given [n] calls of fuel. *)
Definition parses_as (n : nat) (t : jsstring) (v : value) : Prop :=
  forall fuel rest,
    (n <= fuel)%nat -> parse_value fuel (t ++ rest) = Some (v, rest).

(** [t] can stand before any text without making it ill formed. *)
Definition passes (t : jsstring) : Prop :=
  forall r, well_formed (t ++ r) = well_formed r.

Definition blanks (t : jsstring) : Prop := Forall (fun c => is_ws c = true) t.

(** [db[slug] = r] on the properties of [db]: a slug already there
    keeps its place and takes the new record, a new one goes last (a
    slug of thirty-two digits is no array index, which the engine would
    list before the others). *)
Fixpoint assign (entries : list (jsstring * paste)) (slug : jsstring) (r : paste)
  : list (jsstring * paste) :=
  match entries with
  | [] => [(slug, r)]
  | (k, r') :: rest =>
      if bool_decide (k = slug) then (k, r) :: rest
      else (k, r') :: assign rest slug r
  end.

(** A code unit that is no surrogate. *)
Definition plain (c : Z) : Prop := 0 <= c < 55296 \/ 57344 <= c <= 65535.

Definition optional_units (o : option jsstring) : Prop :=
  match o with Some s => Text.units s | None => True end.

(** Two records, one with a name that needs every kind of escape. *)
Definition awkward : list (jsstring * paste) :=
  [(lit "0123456789abcdeffedcba9876543210",
    {| filename := [97; 34; 98; 92; 99; 10; 55357; 100; 55357; 56832; 1; 233];
       language := lit "text";
       megaLink := lit "https://mega.nz/file/aaaa#kkkk";
       createdAt := lit "2024-05-01T10:00:00.000Z" |});
   (lit "1032547698badcfeefcdab8967452301",
    {| filename := lit "a.py"; language := lit "python";
       megaLink := lit "https://mega.nz/file/bbbb#mmmm";
       createdAt := lit "2024-05-01T10:10:00.000Z" |})].





(** A world whose document holds [awkward]. *)
Definition kept : world :=
  {| db_file := list_to_map awkward; mega_files := []; mega_links := ∅ |}.

End Json.

(** *** Requests in flight together *)

Module Turns.
Import JS Server.




(** The record a create stores once it has its link. *)
Definition record_of (c : chance) (req : request) (link : jsstring) : paste :=
  {| filename := filename_of c req; language := language_of req;
     megaLink := link; createdAt := date c |}.





End Turns.

Module Reach.
Import JS Text Server.

(** A draw as [crypto.randomBytes(16)] makes it. *)
Definition proper (c : chance) : Prop :=
  length (randomBytes c) = 16%nat /\ bytes (randomBytes c).

(** Every record of the store has a name, a language and a link that
    the account can dereference. *)
Definition readable (w : world) : Prop :=
  forall slug r,
    db_file w !! slug = Some r ->
    filename r <> [] /\ language r <> [] /\
    is_Some (mega_links w !! megaLink r).


(** A paste whose content has an unpaired surrogate, and one whose
    name is wrapped in blanks of several kinds. *)
Definition broken : request :=
  {| body_content := Some [104; 55357; 105]; body_filename := None;
     body_language := None; body_expire := None; file := None |}.

Definition padded : request :=
  {| body_content := Some (lit "x");
     body_filename := Some ([9; 160] ++ lit "notes v2.txt" ++ [32; 10]);
     body_language := None; body_expire := None; file := None |}.

(** A create that gets its link, the only request that writes. *)
Definition commits (ck : chance * call) : bool :=
  match ck.2 with
  | PostPaste _ =>
      match upload_err ck.1, link_res ck.1 with
      | None, inr _ => true
      | _, _ => false
      end
  | _ => false
  end.

(** The store and the links of a world, which is all the handlers
    read of it. *)
Definition seen (w : world) : gmap jsstring paste * gmap jsstring buffer :=
  (db_file w, mega_links w).

(** [padded], given the name that was taken from it. *)
Definition renamed : request :=
  {| body_content := Some (lit "x");
     body_filename := Some (lit "notes v2.txt");
     body_language := None; body_expire := None; file := None |}.

(** An uploaded file that is not UTF-8. *)
Definition binary : request :=
  {| body_content := None; body_filename := Some (lit "blob.bin");
     body_language := None; body_expire := None;
     file := Some [255; 104; 237; 160; 128; 105] |}.

(** The slug of every draw of [Scenario.sixteen]. *)
Definition drawn : jsstring := lit "0123456789abcdeffedcba9876543210".

End Reach.

Example lit_text : JS.lit "text" = [116; 101; 120; 116].
Proof. reflexivity. Qed.

Example trim_example :
  JS.trim (JS.lit "  a b	 ") = JS.lit "a b".
Proof. reflexivity. Qed.

Example encode_example :
  JS.utf8_encode [104; 233; 8364; 55357; 56832] =
  [104; 195; 169; 226; 130; 172; 240; 159; 152; 128].
Proof. reflexivity. Qed.

Example decode_example :
  JS.utf8_decode [104; 195; 169; 226; 130; 172; 240; 159; 152; 128] =
  [104; 233; 8364; 55357; 56832].
Proof. reflexivity. Qed.

Example decode_malformed :
  JS.utf8_decode [240; 159; 65; 192; 237; 160; 128] =
  [65533; 65; 65533; 65533; 65533; 65533].
Proof. reflexivity. Qed.

Example hex_example : JS.hex_encode [0; 171; 255] = JS.lit "00abff".
Proof. reflexivity. Qed.

(** ** The UTF-8 round trip *)

Module Utf8.
Import JS.

(** Linear arithmetic with division and remainder by constants. *)
Ltac zlia := Z.div_mod_to_equations; lia.

(** Decide every comparison in the goal, discarding the impossible
    branches by arithmetic. *)
Ltac decide_tests :=
  repeat match goal with
  | |- context [?a <=? ?b] =>
      destruct (Z.leb_spec a b); try (exfalso; zlia)
  | |- context [?a <? ?b] =>
      destruct (Z.ltb_spec a b); try (exfalso; zlia)
  | |- context [?a =? ?b] =>
      destruct (Z.eqb_spec a b); try (exfalso; zlia)
  end.

Lemma decode_from_cons st b r :
  decode_from st (b :: r) =
  (decode_byte st b).1 ++ decode_from (decode_byte st b).2 r.
Proof. cbn [decode_from]. destruct (decode_byte st b); reflexivity. Qed.

Lemma lead_ascii b : 0 <= b <= 127 -> decode_byte Idle b = ([b], Idle).
Proof.
  intros. unfold decode_byte, decode_lead, in_range.
  decide_tests; reflexivity.
Qed.

Lemma lead_two b :
  194 <= b <= 223 -> decode_byte Idle b = ([], Pending (b - 192) 0 128 191).
Proof.
  intros. unfold decode_byte, decode_lead, in_range.
  decide_tests; reflexivity.
Qed.

Lemma lead_three b :
  224 <= b <= 239 ->
  decode_byte Idle b =
  ([], Pending (b - 224) 1
         (if b =? 224 then 160 else 128) (if b =? 237 then 159 else 191)).
Proof.
  intros. unfold decode_byte, decode_lead, in_range.
  destruct (Z.leb_spec 0 b), (Z.leb_spec b 127), (Z.leb_spec 194 b),
    (Z.leb_spec b 223), (Z.leb_spec 224 b), (Z.leb_spec b 239);
    try (exfalso; lia); reflexivity.
Qed.

Lemma lead_four b :
  240 <= b <= 244 ->
  decode_byte Idle b =
  ([], Pending (b - 240) 2
         (if b =? 240 then 144 else 128) (if b =? 244 then 143 else 191)).
Proof.
  intros. unfold decode_byte, decode_lead, in_range.
  destruct (Z.leb_spec 0 b), (Z.leb_spec b 127), (Z.leb_spec 194 b),
    (Z.leb_spec b 223), (Z.leb_spec 224 b), (Z.leb_spec b 239),
    (Z.leb_spec 240 b), (Z.leb_spec b 244);
    try (exfalso; lia); reflexivity.
Qed.

Lemma continue_last acc lo hi b :
  lo <= b <= hi ->
  decode_byte (Pending acc 0 lo hi) b =
  (units_of_scalar (acc * 64 + (b - 128)), Idle).
Proof.
  intros. unfold decode_byte, in_range.
  destruct (Z.leb_spec lo b), (Z.leb_spec b hi);
    try (exfalso; lia); reflexivity.
Qed.

Lemma continue_more acc due lo hi b :
  lo <= b <= hi ->
  decode_byte (Pending acc (S due) lo hi) b =
  ([], Pending (acc * 64 + (b - 128)) due 128 191).
Proof.
  intros. unfold decode_byte, in_range.
  destruct (Z.leb_spec lo b), (Z.leb_spec b hi);
    try (exfalso; lia); reflexivity.
Qed.

(** Decoding the UTF-8 form of one scalar value gives back its code
    units and leaves the decoder between characters. *)
Lemma decode_encode_scalar (c : Z) (rest : buffer) :
  is_scalar c ->
  decode_from Idle (encode_scalar c ++ rest) =
  units_of_scalar c ++ decode_from Idle rest.
Proof.
  intros Hc. unfold is_scalar in Hc. unfold encode_scalar.
  destruct (Z.ltb_spec c 128).
  { cbn [app]. rewrite decode_from_cons, lead_ascii by zlia.
    unfold units_of_scalar. decide_tests. reflexivity. }
  destruct (Z.ltb_spec c 2048).
  { cbn [app]. rewrite decode_from_cons, lead_two by zlia. cbn [fst snd app].
    rewrite decode_from_cons, continue_last by zlia. cbn [fst snd].
    do 2 f_equal. zlia. }
  destruct (Z.ltb_spec c 65536).
  { cbn [app]. rewrite decode_from_cons, lead_three by zlia. cbn [fst snd app].
    rewrite decode_from_cons, continue_more by (decide_tests; zlia).
    cbn [fst snd app].
    rewrite decode_from_cons, continue_last by zlia. cbn [fst snd].
    do 2 f_equal. zlia. }
  cbn [app]. rewrite decode_from_cons, lead_four by zlia. cbn [fst snd app].
  rewrite decode_from_cons, continue_more by (decide_tests; zlia).
  cbn [fst snd app].
  rewrite decode_from_cons, continue_more by zlia. cbn [fst snd app].
  rewrite decode_from_cons, continue_last by zlia. cbn [fst snd].
  do 2 f_equal. zlia.
Qed.

Lemma units_of_pair (hi lo : Z) :
  is_high hi = true -> is_low lo = true ->
  units_of_scalar (pair_scalar hi lo) = [hi; lo].
Proof.
  unfold is_high, is_low, units_of_scalar, pair_scalar.
  intros [H1 H2]%andb_true_iff [H3 H4]%andb_true_iff.
  apply Z.leb_le in H1, H2, H3, H4.
  decide_tests. f_equal; [zlia | f_equal; zlia].
Qed.

Lemma pair_is_scalar (hi lo : Z) :
  is_high hi = true -> is_low lo = true -> is_scalar (pair_scalar hi lo).
Proof.
  unfold is_high, is_low, is_scalar, pair_scalar.
  intros [H1 H2]%andb_true_iff [H3 H4]%andb_true_iff.
  apply Z.leb_le in H1, H2, H3, H4. lia.
Qed.

Lemma unit_is_scalar (c : Z) :
  is_high c = false -> is_low c = false -> is_unit c = true ->
  is_scalar c /\ units_of_scalar c = [c].
Proof.
  unfold is_high, is_low, is_unit, is_scalar, units_of_scalar.
  intros H1 H2 [H3 H4]%andb_true_iff.
  apply Z.leb_le in H3, H4.
  apply andb_false_iff in H1, H2.
  rewrite !Z.leb_gt in H1, H2.
  split; [lia |]. decide_tests. reflexivity.
Qed.

(** Decoding what [utf8_encode] produced from a well-formed string gives
    the string back, whatever follows. *)
Lemma decode_encode_app (n : nat) :
  forall (s : jsstring) (rest : buffer),
    (length s <= n)%nat ->
    well_formed s = true ->
    decode_from Idle (utf8_encode s ++ rest) = s ++ decode_from Idle rest.
Proof.
  induction n as [| n IH]; intros s rest Hlen Hwf.
  { destruct s; [reflexivity | cbn in Hlen; lia]. }
  destruct s as [| c r]; [reflexivity |].
  cbn [utf8_encode well_formed] in *.
  destruct (is_high c) eqn:Hh.
  - destruct r as [| d r']; [discriminate |].
    apply andb_true_iff in Hwf as [Hd Hr]. rewrite Hd.
    rewrite <- app_assoc, decode_encode_scalar by (apply pair_is_scalar; assumption).
    rewrite units_of_pair by assumption.
    rewrite IH by (cbn in Hlen; try lia; assumption). reflexivity.
  - destruct (is_low c) eqn:Hl; [discriminate |].
    apply andb_true_iff in Hwf as [Hu Hr].
    destruct (unit_is_scalar c Hh Hl Hu) as [Hs Hunits].
    rewrite <- app_assoc, decode_encode_scalar by assumption.
    rewrite Hunits, IH by (cbn in Hlen; try lia; assumption). reflexivity.
Qed.

(** [Buffer.from(s, 'utf8').toString('utf8')] is [s] for every
    well-formed [s]. *)
Lemma utf8_roundtrip (s : jsstring) :
  well_formed s = true -> utf8_decode (utf8_encode s) = s.
Proof.
  intros Hwf. unfold utf8_decode.
  rewrite <- (app_nil_r (utf8_encode s)).
  rewrite (decode_encode_app (length s)) by (try lia; assumption).
  cbn. apply app_nil_r.
Qed.

End Utf8.

(** ** What each handler computes *)

Module Facts.
Import JS Server.

(** No write is among the events listed. *)
Ltac no_write :=
  let Hin := fresh "Hin" in
  intros Hin; rewrite ?elem_of_cons, elem_of_nil in Hin;
  intuition discriminate.

Ltac run_handler :=
  unfold create, view, raw, mbind, mret, M_bind, M_ret, bind, ret,
    storage_upload, file_link, readDB, writeDB, download, File_fromURL,
    answer, after, trace.

(** A create whose upload and link both succeed: the answer, the world
    it leaves and what it did. *)
Lemma create_linked e c req w link :
  upload_err c = None -> link_res c = inr link ->
  create e c req w =
  (Json 200
     (JCreated (slug_of c) (base_url e ++ lit "/paste/" ++ slug_of c) link),
   {| db_file :=
        <[slug_of c :=
            {| filename := filename_of c req; language := language_of req;
               megaLink := link; createdAt := date c |}]> (db_file w);
      mega_files := (filename_of c req, fileBuffer req) :: mega_files w;
      mega_links := <[link := fileBuffer req]> (mega_links w) |},
   [EUpload (filename_of c req) (fileBuffer req); ELink; EReadDB; EWriteDB]).
Proof.
  intros Hup Hlink. run_handler. rewrite Hup. cbn. rewrite Hlink. reflexivity.
Qed.

(** A create whose upload fails. *)
Lemma create_upload_failed e c req w err :
  upload_err c = Some err ->
  create e c req w =
  (Json 500 (JFailed (error_text err)), w,
   [EUpload (filename_of c req) (fileBuffer req)]).
Proof. intros Hup. run_handler. rewrite Hup. reflexivity. Qed.

(** A create whose upload succeeds and whose link fails: the file
    stays in the account, nothing else changes. *)
Lemma create_link_failed e c req w err :
  upload_err c = None -> link_res c = inl err ->
  create e c req w =
  (Json 500 (JFailed (error_text err)),
   {| db_file := db_file w;
      mega_files := (filename_of c req, fileBuffer req) :: mega_files w;
      mega_links := mega_links w |},
   [EUpload (filename_of c req) (fileBuffer req); ELink]).
Proof.
  intros Hup Hlink. run_handler. rewrite Hup. cbn. rewrite Hlink. reflexivity.
Qed.

Lemma get_own (db : gmap jsstring paste) slug r :
  db !! slug = Some r -> get db slug = Own r.
Proof. intros H. unfold get. rewrite H. reflexivity. Qed.

Lemma get_undefined (db : gmap jsstring paste) slug :
  db !! slug = None -> slug ∉ object_prototype -> get db slug = Undefined.
Proof.
  intros H Hp. unfold get. rewrite H.
  rewrite bool_decide_eq_false_2 by assumption. reflexivity.
Qed.

(** View and raw of a stored slug. *)
Lemma view_own c slug w r :
  db_file w !! slug = Some r ->
  view c slug w =
  (match (if download_fails c then None else mega_links w !! megaLink r) with
   | Some buf =>
       Render (lit "paste")
         {| l_slug := slug; l_text := utf8_decode buf;
            l_filename := Some (filename r); l_language := Some (language r);
            l_megaLink := Some (megaLink r) |}
   | None => Redirect (Some (megaLink r))
   end, w, [EReadDB; EDownload (megaLink r)]).
Proof.
  intros H. run_handler. rewrite (get_own _ _ _ H). cbn.
  destruct (if download_fails c then None else mega_links w !! megaLink r);
    reflexivity.
Qed.

Lemma raw_own c slug w r :
  db_file w !! slug = Some r ->
  raw c slug w =
  (match (if download_fails c then None else mega_links w !! megaLink r) with
   | Some buf =>
       Send 200 (Some (lit "text/plain; charset=utf-8")) (utf8_decode buf)
   | None => Redirect (Some (megaLink r))
   end, w, [EReadDB; EDownload (megaLink r)]).
Proof.
  intros H. run_handler. rewrite (get_own _ _ _ H). cbn.
  destruct (if download_fails c then None else mega_links w !! megaLink r);
    reflexivity.
Qed.

(** View and raw of a slug that is neither stored nor inherited. *)
Lemma view_undefined c slug w :
  db_file w !! slug = None -> slug ∉ object_prototype ->
  view c slug w = (Send 404 None (lit "Paste not found"), w, [EReadDB]).
Proof.
  intros H Hp. run_handler. rewrite (get_undefined _ _ H Hp). reflexivity.
Qed.

Lemma raw_undefined c slug w :
  db_file w !! slug = None -> slug ∉ object_prototype ->
  raw c slug w = (Send 404 None (lit "Not found"), w, [EReadDB]).
Proof.
  intros H Hp. run_handler. rewrite (get_undefined _ _ H Hp). reflexivity.
Qed.

(** View and raw of an inherited name. *)
Lemma view_inherited c slug w :
  db_file w !! slug = None -> slug ∈ object_prototype ->
  view c slug w = (Redirect None, w, [EReadDB]).
Proof.
  intros H Hp. run_handler. unfold get. rewrite H.
  rewrite bool_decide_eq_true_2 by assumption. reflexivity.
Qed.

Lemma raw_inherited c slug w :
  db_file w !! slug = None -> slug ∈ object_prototype ->
  raw c slug w = (Redirect None, w, [EReadDB]).
Proof.
  intros H Hp. run_handler. unfold get. rewrite H.
  rewrite bool_decide_eq_true_2 by assumption. reflexivity.
Qed.

(** Neither read handler changes the world. *)
Lemma view_after c slug w : after (view c slug w) = w.
Proof.
  destruct (db_file w !! slug) as [r |] eqn:H.
  - rewrite (view_own _ _ _ _ H). reflexivity.
  - destruct (decide (slug ∈ object_prototype)) as [Hp | Hp].
    + rewrite (view_inherited _ _ _ H Hp). reflexivity.
    + rewrite (view_undefined _ _ _ H Hp). reflexivity.
Qed.

Lemma raw_after c slug w : after (raw c slug w) = w.
Proof.
  destruct (db_file w !! slug) as [r |] eqn:H.
  - rewrite (raw_own _ _ _ _ H). reflexivity.
  - destruct (decide (slug ∈ object_prototype)) as [Hp | Hp].
    + rewrite (raw_inherited _ _ _ H Hp). reflexivity.
    + rewrite (raw_undefined _ _ _ H Hp). reflexivity.
Qed.



(** Create reads nothing of [expire]. *)
Lemma create_without_expire e c req :
  create e c (without_expire req) = create e c req.
Proof. reflexivity. Qed.

(** The read handlers depend on chance only through the download. *)
Lemma view_chance c1 c2 slug w :
  download_fails c1 = download_fails c2 -> view c1 slug w = view c2 slug w.
Proof.
  intros Hc. destruct (db_file w !! slug) as [r |] eqn:H.
  - rewrite !(view_own _ _ _ _ H), Hc. reflexivity.
  - destruct (decide (slug ∈ object_prototype)) as [Hp | Hp].
    + rewrite !(view_inherited _ _ _ H Hp). reflexivity.
    + rewrite !(view_undefined _ _ _ H Hp). reflexivity.
Qed.

Lemma raw_chance c1 c2 slug w :
  download_fails c1 = download_fails c2 -> raw c1 slug w = raw c2 slug w.
Proof.
  intros Hc. destruct (db_file w !! slug) as [r |] eqn:H.
  - rewrite !(raw_own _ _ _ _ H), Hc. reflexivity.
  - destruct (decide (slug ∈ object_prototype)) as [Hp | Hp].
    + rewrite !(raw_inherited _ _ _ H Hp). reflexivity.
    + rewrite !(raw_undefined _ _ _ H Hp). reflexivity.
Qed.

(** Neither read handler writes the document. *)
Lemma view_trace c slug w : EWriteDB ∉ trace (view c slug w).
Proof.
  destruct (db_file w !! slug) as [r |] eqn:H.
  - rewrite (view_own _ _ _ _ H). unfold trace; cbn. no_write.
  - destruct (decide (slug ∈ object_prototype)) as [Hp | Hp].
    + rewrite (view_inherited _ _ _ H Hp). unfold trace; cbn. no_write.
    + rewrite (view_undefined _ _ _ H Hp). unfold trace; cbn. no_write.
Qed.

Lemma raw_trace c slug w : EWriteDB ∉ trace (raw c slug w).
Proof.
  destruct (db_file w !! slug) as [r |] eqn:H.
  - rewrite (raw_own _ _ _ _ H). unfold trace; cbn. no_write.
  - destruct (decide (slug ∈ object_prototype)) as [Hp | Hp].
    + rewrite (raw_inherited _ _ _ H Hp). unfold trace; cbn. no_write.
    + rewrite (raw_undefined _ _ _ H Hp). unfold trace; cbn. no_write.
Qed.

(** The three ways a create ends, by what MEGA answered. *)
Lemma create_cases (c : chance) :
  (exists link, upload_err c = None /\ link_res c = inr link) \/
  (exists err, upload_err c = Some err) \/
  (exists err, upload_err c = None /\ link_res c = inl err).
Proof.
  destruct (upload_err c) as [err |]; [right; left; eauto |].
  destruct (link_res c) as [err | link]; [right; right; eauto | left; eauto].
Qed.

(** The record store after a create: one key bound, or nothing. *)
Lemma create_db e c req w :
  db_file (after (create e c req w)) = db_file w \/
  exists r, db_file (after (create e c req w)) = <[slug_of c := r]> (db_file w).
Proof.
  destruct (create_cases c)
    as [[link [Hup Hl]] | [[err Hup] | [err [Hup Hl]]]].
  - right. rewrite (create_linked e c req w link Hup Hl). eexists. reflexivity.
  - left. rewrite (create_upload_failed e c req w err Hup). reflexivity.
  - left. rewrite (create_link_failed e c req w err Hup Hl). reflexivity.
Qed.



End Facts.

(** ** The claims *)

Import JS Server Facts Scenario.

(** C1. For every request whose content is UTF-8 representable (a
    well-formed string [s] in the [content] field, or an uploaded file
    holding the UTF-8 form of [s]) and any language, a create that
    succeeds followed by a view or a raw fetch of the returned slug, with
    MEGA reachable, returns exactly [s]: the bytes uploaded are the UTF-8
    form of the text shown. *)
Theorem create_then_view_returns_content
    (e : env) (c c' : chance) (req : request) (w : world)
    (s link : jsstring) :
  well_formed s = true ->
  file req = Some (utf8_encode s) \/
    (file req = None /\ body_content req = Some s) ->
  upload_err c = None -> link_res c = inr link ->
  download_fails c' = false ->
  answer (create e c req w) =
    Json 200
      (JCreated (slug_of c) (base_url e ++ lit "/paste/" ++ slug_of c) link) /\
  fileBuffer req = utf8_encode s /\
  answer (view c' (slug_of c) (after (create e c req w))) =
    Render (lit "paste")
      {| l_slug := slug_of c; l_text := s;
         l_filename := Some (filename_of c req);
         l_language := Some (language_of req);
         l_megaLink := Some link |} /\
  answer (raw c' (slug_of c) (after (create e c req w))) =
    Send 200 (Some (lit "text/plain; charset=utf-8")) s.
Proof.
  intros Hwf Hsrc Hup Hlink Hnet.
  assert (Hbuf : fileBuffer req = utf8_encode s).
  { unfold fileBuffer, content.
    destruct Hsrc as [-> | [-> ->]]; [reflexivity |].
    cbn. destruct s; reflexivity. }
  rewrite (create_linked e c req w link Hup Hlink).
  unfold answer, after; cbn [fst snd].
  split; [reflexivity |]. split; [assumption |].
  split.
  - erewrite view_own by (cbn; apply lookup_insert_eq).
    cbn. rewrite Hnet, lookup_insert_eq, Hbuf, Utf8.utf8_roundtrip by assumption.
    reflexivity.
  - erewrite raw_own by (cbn; apply lookup_insert_eq).
    cbn. rewrite Hnet, lookup_insert_eq, Hbuf, Utf8.utf8_roundtrip by assumption.
    reflexivity.
Qed.

(** The scenario of the specification: [hello world] pasted with no
    filename and no language is stored as [text] under [<slug>.txt], and
    the raw fetch returns [hello world]. *)
Lemma create_then_view_returns_content_witness :
  answer (create local (lucky first_link) hello empty_world) =
    Json 200
      (JCreated (lit "0123456789abcdeffedcba9876543210")
         (lit "http://localhost:3000/paste/0123456789abcdeffedcba9876543210")
         first_link) /\
  fileBuffer hello = utf8_encode (lit "hello world") /\
  answer (view (lucky second_link) (lit "0123456789abcdeffedcba9876543210")
            (after (create local (lucky first_link) hello empty_world))) =
    Render (lit "paste")
      {| l_slug := lit "0123456789abcdeffedcba9876543210";
         l_text := lit "hello world";
         l_filename := Some (lit "0123456789abcdeffedcba9876543210.txt");
         l_language := Some (lit "text");
         l_megaLink := Some first_link |} /\
  answer (raw (lucky second_link) (lit "0123456789abcdeffedcba9876543210")
            (after (create local (lucky first_link) hello empty_world))) =
    Send 200 (Some (lit "text/plain; charset=utf-8")) (lit "hello world").
Proof.
  apply (create_then_view_returns_content
           local (lucky first_link) (lucky second_link) hello empty_world
           (lit "hello world") first_link).
  - reflexivity.
  - right. split; reflexivity.
  - reflexivity.
  - reflexivity.
  - reflexivity.
Defined.

(** C2, at the input where the code departs from it. With nothing
    stored, [constructor] is not a key of the record store, yet
    [db['constructor']] is the inherited [Object] function, which is not
    falsy: neither handler answers 404. [File.fromURL(undefined)] throws
    before anything is fetched and the handler redirects to the
    [megaLink] that the function does not have. *)
Theorem inherited_name_is_not_404 (c : chance) :
  db_file empty_world !! lit "constructor" = None /\
  view c (lit "constructor") empty_world =
    (Redirect None, empty_world, [EReadDB]) /\
  raw c (lit "constructor") empty_world =
    (Redirect None, empty_world, [EReadDB]).
Proof.
  split; [reflexivity |].
  split; [apply view_inherited | apply raw_inherited];
    first [reflexivity | unfold object_prototype; cbn; set_solver].
Qed.

(** What does hold of absent slugs: one that is not a member of
    [Object.prototype] either gets 404 from both handlers, after a read
    of the document and nothing else. *)
Lemma absent_slug_not_found (c : chance) (slug : jsstring) (w : world) :
  db_file w !! slug = None -> slug ∉ object_prototype ->
  view c slug w = (Send 404 None (lit "Paste not found"), w, [EReadDB]) /\
  raw c slug w = (Send 404 None (lit "Not found"), w, [EReadDB]).
Proof.
  intros H Hp. split; [apply view_undefined | apply raw_undefined]; assumption.
Qed.



(** C4. For a slug the record store holds, when the download of the
    stored link fails (MEGA unreachable, or the link unknown to it),
    view and raw both redirect to exactly that link. *)
Theorem download_failure_redirects
    (c : chance) (slug : jsstring) (w : world) (r : paste) :
  db_file w !! slug = Some r ->
  download_fails c = true \/ mega_links w !! megaLink r = None ->
  answer (view c slug w) = Redirect (Some (megaLink r)) /\
  answer (raw c slug w) = Redirect (Some (megaLink r)).
Proof.
  intros Hr Hfail.
  rewrite (view_own c slug w r Hr), (raw_own c slug w r Hr).
  unfold answer; cbn [fst].
  destruct Hfail as [-> | Hnone].
  - split; reflexivity.
  - rewrite Hnone. destruct (download_fails c); split; reflexivity.
Qed.

Lemma download_failure_redirects_witness :
  answer (view offline (lit "0123456789abcdeffedcba9876543210") pasted) =
    Redirect (Some first_link) /\
  answer (raw offline (lit "0123456789abcdeffedcba9876543210") pasted) =
    Redirect (Some first_link).
Proof.
  apply (download_failure_redirects offline
           (lit "0123456789abcdeffedcba9876543210") pasted
           {| filename := lit "0123456789abcdeffedcba9876543210.txt";
              language := lit "text"; megaLink := first_link;
              createdAt := lit "2024-05-01T10:00:00.000Z" |}).
  - vm_compute. reflexivity.
  - left. reflexivity.
Defined.

(** C5. When the upload or the retrieval of the link fails, create
    answers [{ ok: false, error }] with status 500, never writes the
    document, and leaves the record store as it was. *)
Theorem backend_failure_writes_nothing
    (e : env) (c : chance) (req : request) (w : world) :
  is_Some (upload_err c) \/ (exists err, link_res c = inl err) ->
  (exists msg, answer (create e c req w) = Json 500 (JFailed msg)) /\
  db_file (after (create e c req w)) = db_file w /\
  EWriteDB ∉ trace (create e c req w).
Proof.
  intros Hfail.
  destruct (upload_err c) as [err |] eqn:Hup.
  - rewrite (create_upload_failed e c req w err Hup).
    unfold answer, after, trace; cbn.
    split; [eexists; reflexivity |]. split; [reflexivity |]. no_write.
  - destruct Hfail as [[x Hx] | [err Hlink]]; [discriminate |].
    rewrite (create_link_failed e c req w err Hup Hlink).
    unfold answer, after, trace; cbn.
    split; [eexists; reflexivity |]. split; [reflexivity |]. no_write.
Qed.

Lemma backend_failure_writes_nothing_witness :
  (exists msg, answer (create local refused script pasted) =
                 Json 500 (JFailed msg)) /\
  db_file (after (create local refused script pasted)) = db_file pasted /\
  EWriteDB ∉ trace (create local refused script pasted).
Proof.
  apply (backend_failure_writes_nothing local refused script pasted).
  left. eexists. reflexivity.
Defined.




(** With a disk that works, [create_io] is [create]. *)
Lemma create_io_calm (e : env) (c : chance) (req : request) (w : world) :
  Io.create_io e c Io.calm req (Io.machine_of w) =
  (Some (answer (create e c req w)), Io.machine_of (after (create e c req w)),
   trace (create e c req w)).
Proof.
  unfold Io.create_io.
  destruct (create_cases c)
    as [[link [Hup Hl]] | [[err Hup] | [err [Hup Hl]]]].
  - rewrite (create_linked e c req w link Hup Hl), Hup, Hl. reflexivity.
  - rewrite (create_upload_failed e c req w err Hup), Hup. reflexivity.
  - rewrite (create_link_failed e c req w err Hup Hl), Hup, Hl. reflexivity.
Qed.



(** C8. Two create requests that differ at most in [expire] are served
    alike: same answer, same world, same events; and in any sequence of
    requests, putting one for the other changes no answer and no final
    world. Nothing stored or served depends on the field. *)
Theorem expire_is_ignored
    (e : env) (c : chance) (r1 r2 : request) (w : world)
    (before later : list (chance * call)) :
  without_expire r1 = without_expire r2 ->
  create e c r1 w = create e c r2 w /\
  serve e (before ++ (c, PostPaste r1) :: later) w =
  serve e (before ++ (c, PostPaste r2) :: later) w.
Proof.
  intros Hsame.
  assert (Hcreate : forall w', create e c r1 w' = create e c r2 w').
  { intros w'.
    rewrite <- (create_without_expire e c r1), <- (create_without_expire e c r2).
    rewrite Hsame. reflexivity. }
  split; [apply Hcreate |].
  revert w. induction before as [| [c' k] before IH]; intros w.
  - cbn [app serve handle]. rewrite Hcreate. reflexivity.
  - cbn [app serve]. rewrite IH. reflexivity.
Qed.

Lemma expire_is_ignored_witness :
  create local (lucky second_link) script pasted =
  create local (lucky second_link) (without_expire script) pasted /\
  serve local
    ([(offline, GetPaste (lit "constructor"))] ++
     (lucky second_link, PostPaste script) :: afterwards) pasted =
  serve local
    ([(offline, GetPaste (lit "constructor"))] ++
     (lucky second_link, PostPaste (without_expire script)) :: afterwards)
    pasted.
Proof.
  apply (expire_is_ignored local (lucky second_link) script
           (without_expire script) pasted
           [(offline, GetPaste (lit "constructor"))] afterwards).
  reflexivity.
Defined.

(** C9. View and raw leave the world as it is and never write the
    document; a second view (or raw) of the same slug, MEGA answering as
    it did the first time, returns what the first returned. *)
Theorem reads_do_not_write
    (c1 c2 : chance) (slug : jsstring) (w : world) :
  download_fails c1 = download_fails c2 ->
  after (view c1 slug w) = w /\
  after (raw c1 slug w) = w /\
  (EWriteDB ∉ trace (view c1 slug w)) /\
  (EWriteDB ∉ trace (raw c1 slug w)) /\
  answer (view c2 slug (after (view c1 slug w))) = answer (view c1 slug w) /\
  answer (raw c2 slug (after (raw c1 slug w))) = answer (raw c1 slug w).
Proof.
  intros Hc.
  split; [apply view_after |]. split; [apply raw_after |].
  split; [apply view_trace |]. split; [apply raw_trace |].
  rewrite view_after, raw_after.
  rewrite (view_chance c1 c2 slug w Hc), (raw_chance c1 c2 slug w Hc).
  split; reflexivity.
Qed.

Lemma reads_do_not_write_witness :
  after (view (lucky first_link) (slug_of (lucky first_link)) pasted) =
    pasted /\
  after (raw (lucky first_link) (slug_of (lucky first_link)) pasted) =
    pasted /\
  (EWriteDB ∉
     trace (view (lucky first_link) (slug_of (lucky first_link)) pasted)) /\
  (EWriteDB ∉
     trace (raw (lucky first_link) (slug_of (lucky first_link)) pasted)) /\
  answer
    (view (elsewhere second_link) (slug_of (lucky first_link))
       (after (view (lucky first_link) (slug_of (lucky first_link)) pasted))) =
    answer (view (lucky first_link) (slug_of (lucky first_link)) pasted) /\
  answer
    (raw (elsewhere second_link) (slug_of (lucky first_link))
       (after (raw (lucky first_link) (slug_of (lucky first_link)) pasted))) =
    answer (raw (lucky first_link) (slug_of (lucky first_link)) pasted).
Proof.
  apply (reads_do_not_write (lucky first_link) (elsewhere second_link)
           (slug_of (lucky first_link)) pasted).
  reflexivity.
Defined.

(** C10. A request with neither a file part nor a [content] field is
    not turned away: it is served exactly as the same request with
    [content] set to the empty string, the buffer uploaded is empty, and
    when upload and link succeed the answer is the 200 one and a record
    is stored under the slug, its link dereferencing to the empty
    buffer. *)
Theorem missing_content_is_empty_paste
    (e : env) (c : chance) (req : request) (w : world) :
  file req = None -> body_content req = None ->
  fileBuffer req = [] /\
  create e c req w = create e c (with_empty_content req) w /\
  forall link,
    upload_err c = None -> link_res c = inr link ->
    answer (create e c req w) =
      Json 200
        (JCreated (slug_of c) (base_url e ++ lit "/paste/" ++ slug_of c)
           link) /\
    db_file (after (create e c req w)) !! slug_of c =
      Some {| filename := filename_of c req; language := language_of req;
              megaLink := link; createdAt := date c |} /\
    mega_links (after (create e c req w)) !! link = Some [] /\
    trace (create e c req w) =
      [EUpload (filename_of c req) []; ELink; EReadDB; EWriteDB].
Proof.
  intros Hfile Hcontent.
  assert (Hbuf : fileBuffer req = [])
    by (unfold fileBuffer, content; rewrite Hfile, Hcontent; reflexivity).
  assert (Hbuf' : fileBuffer (with_empty_content req) = [])
    by (unfold fileBuffer, content; cbn; rewrite Hfile; reflexivity).
  split; [assumption |]. split.
  - unfold create. rewrite Hbuf, Hbuf'. reflexivity.
  - intros link Hup Hlink.
    rewrite (create_linked e c req w link Hup Hlink), Hbuf.
    unfold answer, after, trace; cbn [fst snd db_file mega_links].
    rewrite !lookup_insert_eq. repeat split; reflexivity.
Qed.

Lemma missing_content_is_empty_paste_witness :
  fileBuffer bare = [] /\
  create local (lucky first_link) bare empty_world =
    create local (lucky first_link) (with_empty_content bare) empty_world /\
  answer (create local (lucky first_link) bare empty_world) =
    Json 200
      (JCreated (lit "0123456789abcdeffedcba9876543210")
         (lit "http://localhost:3000/paste/0123456789abcdeffedcba9876543210")
         first_link) /\
  db_file (after (create local (lucky first_link) bare empty_world))
    !! lit "0123456789abcdeffedcba9876543210" =
    Some {| filename := lit "0123456789abcdeffedcba9876543210.txt";
            language := lit "text"; megaLink := first_link;
            createdAt := lit "2024-05-01T10:00:00.000Z" |} /\
  mega_links (after (create local (lucky first_link) bare empty_world))
    !! first_link = Some [] /\
  trace (create local (lucky first_link) bare empty_world) =
    [EUpload (lit "0123456789abcdeffedcba9876543210.txt") [];
     ELink; EReadDB; EWriteDB].
Proof.
  destruct (missing_content_is_empty_paste local (lucky first_link) bare
              empty_world) as [Hbuf [Hsame Hstored]];
    [reflexivity | reflexivity |].
  split; [exact Hbuf |]. split; [exact Hsame |].
  apply (Hstored first_link); reflexivity.
Defined.

(** ** Beyond the claims: text *)

Module TextFacts.
Import JS Text Utf8.

Lemma well_formed_scalar (c : Z) (r : jsstring) :
  is_scalar c -> well_formed (units_of_scalar c ++ r) = well_formed r.
Proof.
  unfold is_scalar, units_of_scalar. intros Hc.
  destruct (Z.ltb_spec c 65536).
  - cbn [app well_formed]. unfold is_high, is_low, is_unit.
    decide_tests; reflexivity.
  - cbn [app well_formed]. unfold is_high, is_low.
    decide_tests; reflexivity.
Qed.

Lemma well_formed_replacement (r : jsstring) :
  well_formed (replacement :: r) = well_formed r.
Proof. reflexivity. Qed.

Lemma decode_lead_sound (b : Z) :
  sound (decode_lead b).2 /\
  forall r, well_formed ((decode_lead b).1 ++ r) = well_formed r.
Proof.
  unfold decode_lead, in_range.
  destruct (Z.leb_spec 0 b), (Z.leb_spec b 127); cbn [andb fst snd sound].
  1: { split; [exact I |]. intros r. cbn [app well_formed].
       unfold is_high, is_low, is_unit. decide_tests; reflexivity. }
  all: destruct (Z.leb_spec 194 b), (Z.leb_spec b 223); cbn [andb fst snd sound];
    try (split; [cbn; unfold is_scalar; intros; lia | reflexivity]).
  all: destruct (Z.leb_spec 224 b), (Z.leb_spec b 239); cbn [andb fst snd sound];
    try (split; [| reflexivity]; cbn; unfold is_scalar;
         destruct (Z.eqb_spec b 224), (Z.eqb_spec b 237); intros; lia).
  all: destruct (Z.leb_spec 240 b), (Z.leb_spec b 244); cbn [andb fst snd sound];
    try (split; [| reflexivity]; cbn; unfold is_scalar;
         destruct (Z.eqb_spec b 240), (Z.eqb_spec b 244); intros; lia).
  all: split; [exact I | reflexivity].
Qed.

Lemma decode_byte_sound (st : decoder) (b : Z) :
  sound st ->
  sound (decode_byte st b).2 /\
  forall r, well_formed ((decode_byte st b).1 ++ r) = well_formed r.
Proof.
  destruct st as [| acc due lo hi]; [intros _; apply decode_lead_sound |].
  intros Hst. cbn [decode_byte]. unfold in_range.
  destruct (Z.leb_spec lo b), (Z.leb_spec b hi); cbn [andb].
  1: { destruct due as [| due']; cbn [fst snd sound].
       - split; [exact I |]. intros r. apply well_formed_scalar.
         apply Hst. lia.
       - split; [| reflexivity]. apply Hst. lia. }
  all: destruct (decode_lead_sound b) as [Hs Hw];
    destruct (decode_lead b) as [out st']; cbn [fst snd] in *;
    split; [exact Hs | intros r; cbn [app]; rewrite well_formed_replacement; apply Hw].
Qed.

(** From a sound state the decoder only ever writes well-formed
    text. *)
Lemma decode_from_well_formed (bs : buffer) :
  forall st, sound st -> well_formed (decode_from st bs) = true.
Proof.
  induction bs as [| b r IH]; intros st Hst.
  - destruct st; reflexivity.
  - rewrite decode_from_cons.
    destruct (decode_byte_sound st b Hst) as [Hs Hw].
    rewrite Hw. apply IH. exact Hs.
Qed.

Lemma utf8_decode_well_formed (bs : buffer) :
  well_formed (utf8_decode bs) = true.
Proof. apply decode_from_well_formed. exact I. Qed.

End TextFacts.

Module TrimFacts.
Import JS Text.

Lemma trim_start_split (s : jsstring) :
  exists pre, s = pre ++ trim_start s /\ blank pre /\
    forall c, head (trim_start s) = Some c -> is_space c = false.
Proof.
  induction s as [| c r IH].
  - exists []. split; [reflexivity |]. split; [constructor | discriminate].
  - cbn [trim_start]. destruct (is_space c) eqn:Hc.
    + destruct IH as [pre [Hs [Hpre Hhead]]].
      exists (c :: pre). split; [cbn; congruence |].
      split; [constructor; assumption | exact Hhead].
    + exists []. split; [reflexivity |]. split; [constructor |].
      intros c' Hc'. cbn in Hc'. congruence.
Qed.

Lemma blank_rev (s : jsstring) : blank s -> blank (rev s).
Proof. unfold blank. apply Forall_rev. Qed.

Lemma last_rev (s : jsstring) : last (rev s) = head s.
Proof. rewrite rev_alt. apply (last_reverse s). Qed.

Lemma trim_end_split (s : jsstring) :
  exists post, s = trim_end s ++ post /\ blank post /\
    forall c, last (trim_end s) = Some c -> is_space c = false.
Proof.
  unfold trim_end.
  destruct (trim_start_split (rev s)) as [pre [Hs [Hpre Hhead]]].
  exists (rev pre). split.
  - rewrite <- rev_app_distr, <- Hs, rev_involutive. reflexivity.
  - split; [apply blank_rev; assumption |].
    intros c Hc. apply Hhead.
    rewrite last_rev in Hc. exact Hc.
Qed.

Lemma head_app_nonempty (a b : jsstring) (c : Z) :
  head a = Some c -> head (a ++ b) = Some c.
Proof. destruct a; [discriminate | intros H; exact H]. Qed.

(** [trim] cuts a blank prefix and a blank suffix, and what is left
    neither begins nor ends with a blank. *)
Lemma trim_split (s : jsstring) :
  exists pre post,
    s = pre ++ trim s ++ post /\ blank pre /\ blank post /\
    (forall c, head (trim s) = Some c -> is_space c = false) /\
    (forall c, last (trim s) = Some c -> is_space c = false).
Proof.
  unfold trim.
  destruct (trim_start_split s) as [pre [Hs [Hpre Hhead]]].
  destruct (trim_end_split (trim_start s)) as [post [Ht [Hpost Hlast]]].
  exists pre, post. split; [rewrite <- Ht; exact Hs |].
  split; [assumption |]. split; [assumption |]. split; [| exact Hlast].
  intros c Hc. apply Hhead. rewrite Ht. apply head_app_nonempty. exact Hc.
Qed.

End TrimFacts.

Module SlugFacts.
Import JS Text Server Utf8.

Lemma hex_digit_is_hex (n : Z) :
  0 <= n <= 15 -> is_hex_digit (hex_digit n) = true.
Proof.
  intros Hn. unfold is_hex_digit, hex_digit.
  destruct (Z.ltb_spec n 10); decide_tests; reflexivity.
Qed.

Lemma hex_digit_inj (m n : Z) :
  0 <= m <= 15 -> 0 <= n <= 15 -> hex_digit m = hex_digit n -> m = n.
Proof.
  unfold hex_digit. intros Hm Hn.
  destruct (Z.ltb_spec m 10), (Z.ltb_spec n 10); lia.
Qed.

Lemma hex_encode_shape (b : buffer) :
  bytes b ->
  hex_string (hex_encode b) = true /\
  length (hex_encode b) = (2 * length b)%nat.
Proof.
  unfold bytes, hex_string. induction 1 as [| x r Hx Hr IH].
  - split; reflexivity.
  - destruct IH as [IHhex IHlen]. cbn [hex_encode flat_map app forallb length].
    fold (hex_encode r). rewrite IHhex, IHlen.
    rewrite !hex_digit_is_hex by zlia. split; [reflexivity | lia].
Qed.

Lemma hex_encode_inj (a : buffer) :
  forall b, bytes a -> bytes b -> hex_encode a = hex_encode b -> a = b.
Proof.
  unfold bytes. induction a as [| x a IH]; intros [| y b] Ha Hb Heq;
    try reflexivity; try discriminate.
  inversion Ha as [| ? ? Hx Ha']; inversion Hb as [| ? ? Hy Hb']; subst.
  cbn [hex_encode flat_map app] in Heq. injection Heq as Hhi Hlo Hrest.
  apply hex_digit_inj in Hhi; [| zlia | zlia].
  apply hex_digit_inj in Hlo; [| zlia | zlia].
  f_equal; [zlia | apply IH; assumption].
Qed.

(** No name of [Object.prototype] is written in hex digits only. *)
Lemma hex_string_not_inherited (s : jsstring) :
  hex_string s = true -> s ∉ object_prototype.
Proof.
  intros Hhex Hin. unfold object_prototype in Hin. cbn [map] in Hin.
  repeat (apply elem_of_cons in Hin as [-> | Hin];
          [vm_compute in Hhex; discriminate |]).
  inversion Hin.
Qed.

End SlugFacts.

Module EncodeFacts.
Import JS Text Utf8.

Lemma replacement_scalar : is_scalar replacement.
Proof. unfold is_scalar, replacement. lia. Qed.

Lemma decode_replacement_bytes (rest : buffer) :
  decode_from Idle (replacement_bytes ++ rest) =
  replacement :: decode_from Idle rest.
Proof.
  change replacement_bytes with (encode_scalar replacement).
  rewrite decode_encode_scalar by apply replacement_scalar. reflexivity.
Qed.

(** Decoding what [utf8_encode] made of any string of code units gives
    the string with its unpaired surrogates replaced. *)
Lemma decode_encode_any (n : nat) :
  forall (s : jsstring) (rest : buffer),
    (length s <= n)%nat -> units s ->
    decode_from Idle (utf8_encode s ++ rest) =
    to_well_formed s ++ decode_from Idle rest.
Proof.
  induction n as [| n IH]; intros s rest Hlen Hs.
  { destruct s; [reflexivity | cbn in Hlen; lia]. }
  destruct s as [| c r]; [reflexivity |].
  inversion Hs as [| ? ? Hc Hr]; subst.
  cbn [utf8_encode to_well_formed]. cbn [length] in Hlen.
  destruct (is_high c) eqn:Hh.
  - destruct r as [| d r'].
    + rewrite decode_replacement_bytes. reflexivity.
    + inversion Hr as [| ? ? Hd Hr']; subst. cbn [length] in Hlen.
      destruct (is_low d) eqn:Hl.
      * rewrite <- app_assoc, decode_encode_scalar
          by (apply pair_is_scalar; assumption).
        rewrite units_of_pair by assumption.
        rewrite IH by (try lia; assumption). reflexivity.
      * rewrite <- app_assoc, decode_replacement_bytes.
        rewrite IH by (cbn [length]; try lia; assumption). reflexivity.
  - destruct (is_low c) eqn:Hl.
    + rewrite <- app_assoc, decode_replacement_bytes.
      rewrite IH by (try lia; assumption). reflexivity.
    + assert (Hu : is_unit c = true)
        by (unfold is_unit; apply andb_true_iff; split; apply Z.leb_le; lia).
      destruct (unit_is_scalar c Hh Hl Hu) as [Hsc Hunits].
      rewrite <- app_assoc, decode_encode_scalar by assumption.
      rewrite Hunits, IH by (try lia; assumption). reflexivity.
Qed.

Lemma utf8_decode_encode (s : jsstring) :
  units s -> utf8_decode (utf8_encode s) = to_well_formed s.
Proof.
  intros Hs. unfold utf8_decode.
  rewrite <- (app_nil_r (utf8_encode s)).
  rewrite (decode_encode_any (length s)) by (try lia; assumption).
  cbn. apply app_nil_r.
Qed.

Lemma encode_scalar_bytes (c : Z) : is_scalar c -> bytes (encode_scalar c).
Proof.
  unfold is_scalar, encode_scalar, bytes. intros Hc.
  destruct (Z.ltb_spec c 128); [repeat constructor; lia |].
  destruct (Z.ltb_spec c 2048); [repeat constructor; zlia |].
  destruct (Z.ltb_spec c 65536); repeat constructor; zlia.
Qed.

Lemma replacement_bytes_bytes : bytes replacement_bytes.
Proof. unfold bytes, replacement_bytes. repeat constructor; lia. Qed.

(** [Buffer.from(s, 'utf8')] holds bytes. *)
Lemma utf8_encode_bytes (n : nat) :
  forall s : jsstring,
    (length s <= n)%nat -> units s -> bytes (utf8_encode s).
Proof.
  induction n as [| n IH]; intros s Hlen Hs.
  { destruct s; [constructor | cbn in Hlen; lia]. }
  destruct s as [| c r]; [constructor |].
  inversion Hs as [| ? ? Hc Hr]; subst.
  cbn [utf8_encode]. cbn [length] in Hlen.
  destruct (is_high c) eqn:Hh.
  - destruct r as [| d r']; [apply replacement_bytes_bytes |].
    inversion Hr as [| ? ? Hd Hr']; subst. cbn [length] in Hlen.
    destruct (is_low d) eqn:Hl; apply Forall_app; split.
    + apply encode_scalar_bytes, pair_is_scalar; assumption.
    + apply IH; [lia | assumption].
    + apply replacement_bytes_bytes.
    + apply IH; [cbn [length]; lia | assumption].
  - destruct (is_low c) eqn:Hl; apply Forall_app; split.
    + apply replacement_bytes_bytes.
    + apply IH; [lia | assumption].
    + assert (Hu : is_unit c = true)
        by (unfold is_unit; apply andb_true_iff; split; apply Z.leb_le; lia).
      apply encode_scalar_bytes. apply (unit_is_scalar c Hh Hl Hu).
    + apply IH; [lia | assumption].
Qed.

(** A well-formed string has nothing to replace. *)
Lemma to_well_formed_id (n : nat) :
  forall s : jsstring,
    (length s <= n)%nat -> well_formed s = true -> to_well_formed s = s.
Proof.
  induction n as [| n IH]; intros s Hlen Hwf.
  { destruct s; [reflexivity | cbn in Hlen; lia]. }
  destruct s as [| c r]; [reflexivity |].
  cbn [to_well_formed well_formed] in *. cbn [length] in Hlen.
  destruct (is_high c).
  - destruct r as [| d r']; [discriminate |]. cbn [length] in Hlen.
    apply andb_true_iff in Hwf as [Hd Hr]. rewrite Hd.
    rewrite IH by (try lia; assumption). reflexivity.
  - destruct (is_low c); [discriminate |].
    apply andb_true_iff in Hwf as [_ Hr].
    rewrite IH by (try lia; assumption). reflexivity.
Qed.

End EncodeFacts.

(** ** Beyond the claims: the handlers *)

Module HandlerFacts.
Import JS Text Server Facts Reach.

(** What one request leaves of the links issued so far. *)
Lemma create_links e c req w :
  mega_links (after (create e c req w)) = mega_links w \/
  exists link,
    upload_err c = None /\ link_res c = inr link /\
    mega_links (after (create e c req w)) =
      <[link := fileBuffer req]> (mega_links w).
Proof.
  destruct (create_cases c)
    as [[link [Hup Hl]] | [[err Hup] | [err [Hup Hl]]]].
  - right. exists link. rewrite (create_linked e c req w link Hup Hl).
    split; [assumption |]. split; [assumption | reflexivity].
  - left. rewrite (create_upload_failed e c req w err Hup). reflexivity.
  - left. rewrite (create_link_failed e c req w err Hup Hl). reflexivity.
Qed.

Lemma handle_links_grow e c k w link :
  is_Some (mega_links w !! link) ->
  is_Some (mega_links (after (handle e c k w)) !! link).
Proof.
  intros Hsome. destruct k as [req | s | s]; cbn [handle].
  - destruct (create_links e c req w) as [-> | [l [_ [_ ->]]]]; [assumption |].
    destruct (decide (l = link)) as [-> | Hne].
    + rewrite lookup_insert_eq. eexists; reflexivity.
    + rewrite lookup_insert_ne by assumption. assumption.
  - rewrite view_after. assumption.
  - rewrite raw_after. assumption.
Qed.


Lemma filename_of_nonempty c req : filename_of c req <> [].
Proof.
  unfold filename_of, filenameProvided.
  destruct (body_filename req) as [f |]; cbn [or_else].
  - destruct (truthy f && truthy (trim f)) eqn:Ht; cbn [or_else].
    + apply andb_true_iff in Ht as [_ Ht]. rewrite Ht.
      destruct (trim f); [discriminate | discriminate].
    + intros H. apply (f_equal (@length Z)) in H.
      rewrite !length_app in H. cbn in H. lia.
  - intros H. apply (f_equal (@length Z)) in H.
    rewrite !length_app in H. cbn in H. lia.
Qed.

Lemma language_of_nonempty req : language_of req <> [].
Proof.
  unfold language_of. destruct (body_language req) as [[| x l] |];
    cbn; discriminate.
Qed.

(** One request keeps the store readable. *)
Lemma handle_readable e c k w :
  readable w -> readable (after (handle e c k w)).
Proof.
  intros Hw. destruct k as [req | s | s]; cbn [handle];
    [| rewrite view_after; assumption | rewrite raw_after; assumption].
  destruct (create_cases c)
    as [[link [Hup Hl]] | [[err Hup] | [err [Hup Hl]]]].
  - rewrite (create_linked e c req w link Hup Hl). unfold after; cbn [fst snd].
    intros slug r Hr. cbn [db_file mega_links] in *.
    destruct (decide (slug_of c = slug)) as [<- | Hne].
    + rewrite lookup_insert_eq in Hr. injection Hr as <-. cbn.
      split; [apply filename_of_nonempty |].
      split; [apply language_of_nonempty |].
      rewrite lookup_insert_eq. eexists; reflexivity.
    + rewrite lookup_insert_ne in Hr by assumption.
      destruct (Hw slug r Hr) as [Hf [Hlang Hlink]].
      split; [assumption |]. split; [assumption |].
      destruct (decide (link = megaLink r)) as [-> | Hl'].
      * rewrite lookup_insert_eq. eexists; reflexivity.
      * rewrite lookup_insert_ne by assumption. assumption.
  - rewrite (create_upload_failed e c req w err Hup). assumption.
  - rewrite (create_link_failed e c req w err Hup Hl). exact Hw.
Qed.

(** What every request keeps, every sequence keeps. *)
Lemma serve_keeps (e : env) (P : world -> Prop) (Q : chance * call -> Prop) :
  (forall c k w, Q (c, k) -> P w -> P (after (handle e c k w))) ->
  forall ks w, Forall Q ks -> P w -> P (serve e ks w).2.
Proof.
  intros Hstep. induction ks as [| [c k] ks IH]; intros w Hall Hw.
  - exact Hw.
  - inversion Hall as [| ? ? Hck Hks]; subst. cbn [serve].
    destruct (serve e ks (after (handle e c k w))) as [rs w'] eqn:Hs.
    cbn [snd]. specialize (IH (after (handle e c k w)) Hks (Hstep c k w Hck Hw)).
    rewrite Hs in IH. exact IH.
Qed.

Lemma Forall_always {A} (l : list A) : Forall (fun _ => True) l.
Proof. induction l; constructor; [exact I | assumption]. Qed.

Lemma empty_readable : readable empty_world.
Proof. intros slug r Hr. cbn in Hr. rewrite lookup_empty in Hr. discriminate. Qed.

(** The keys one request adds are slugs. *)
Lemma handle_keys e c k w slug :
  proper c ->
  is_Some (db_file (after (handle e c k w)) !! slug) ->
  is_Some (db_file w !! slug) \/
  (length slug = 32%nat /\ hex_string slug = true).
Proof.
  intros [Hlen Hbytes] Hsome. destruct k as [req | s | s]; cbn [handle] in Hsome;
    [| rewrite view_after in Hsome; left; assumption
     | rewrite raw_after in Hsome; left; assumption].
  destruct (create_db e c req w) as [Hdb | [r Hdb]]; rewrite Hdb in Hsome;
    [left; assumption |].
  destruct (decide (slug_of c = slug)) as [<- | Hne].
  - right. destruct (SlugFacts.hex_encode_shape _ Hbytes) as [Hhex Hl].
    unfold slug_of. rewrite Hl, Hlen. split; [reflexivity | assumption].
  - rewrite lookup_insert_ne in Hsome by assumption. left; assumption.
Qed.

End HandlerFacts.

(** ** Beyond the claims: properties *)

Import Text Reach TrimFacts SlugFacts EncodeFacts TextFacts HandlerFacts.

(** X1. Whatever string is pasted, unpaired surrogates included, the
    buffer uploaded holds bytes, and a view or raw fetch after the
    create returns the string with each unpaired surrogate replaced by
    U+FFFD and everything else as it was. *)
Theorem pasted_text_comes_back_without_lone_surrogates
    (e : env) (c c' : chance) (req : request) (w : world)
    (s link : jsstring) :
  units s ->
  file req = None -> body_content req = Some s ->
  upload_err c = None -> link_res c = inr link ->
  download_fails c' = false ->
  bytes (fileBuffer req) /\
  answer (view c' (slug_of c) (after (create e c req w))) =
    Render (lit "paste")
      {| l_slug := slug_of c; l_text := to_well_formed s;
         l_filename := Some (filename_of c req);
         l_language := Some (language_of req);
         l_megaLink := Some link |} /\
  answer (raw c' (slug_of c) (after (create e c req w))) =
    Send 200 (Some (lit "text/plain; charset=utf-8")) (to_well_formed s).
Proof.
  intros Hs Hfile Hcontent Hup Hlink Hnet.
  assert (Hbuf : fileBuffer req = utf8_encode s).
  { unfold fileBuffer, content. rewrite Hfile, Hcontent.
    cbn. destruct s; reflexivity. }
  split.
  { rewrite Hbuf. apply (utf8_encode_bytes (length s)); [lia | assumption]. }
  rewrite (create_linked e c req w link Hup Hlink).
  unfold after; cbn [fst snd]. split.
  - erewrite view_own by (cbn; apply lookup_insert_eq).
    unfold answer; cbn.
    rewrite Hnet, lookup_insert_eq, Hbuf, utf8_decode_encode by assumption.
    reflexivity.
  - erewrite raw_own by (cbn; apply lookup_insert_eq).
    unfold answer; cbn.
    rewrite Hnet, lookup_insert_eq, Hbuf, utf8_decode_encode by assumption.
    reflexivity.
Qed.

Lemma pasted_text_comes_back_without_lone_surrogates_witness :
  bytes (fileBuffer broken) /\
  answer (view (lucky second_link) drawn
            (after (create local (lucky first_link) broken empty_world))) =
    Render (lit "paste")
      {| l_slug := drawn; l_text := [104; 65533; 105];
         l_filename := Some (drawn ++ lit ".txt");
         l_language := Some (lit "text");
         l_megaLink := Some first_link |} /\
  answer (raw (lucky second_link) drawn
            (after (create local (lucky first_link) broken empty_world))) =
    Send 200 (Some (lit "text/plain; charset=utf-8")) [104; 65533; 105].
Proof.
  apply (pasted_text_comes_back_without_lone_surrogates
           local (lucky first_link) (lucky second_link) broken empty_world
           [104; 55357; 105] first_link);
    try reflexivity.
  repeat constructor; lia.
Defined.

(** X2. Whatever bytes MEGA returns for a link, the text a view hands
    to the template and the text a raw fetch sends is a well-formed
    string: the decoder never lets an unpaired surrogate or a value
    beyond U+10FFFF through. *)
Theorem shown_text_is_well_formed (c : chance) (slug : jsstring) (w : world) :
  (forall v d, answer (view c slug w) = Render v d ->
     well_formed (l_text d) = true) /\
  (forall st ct t, answer (raw c slug w) = Send st ct t ->
     well_formed t = true).
Proof.
  destruct (db_file w !! slug) as [r |] eqn:Hr.
  - rewrite (view_own c slug w r Hr), (raw_own c slug w r Hr).
    unfold answer; cbn [fst].
    destruct (if download_fails c then None else mega_links w !! megaLink r)
      as [buf |]; split; intros; try discriminate.
    + match goal with H : Render _ _ = Render _ _ |- _ =>
        injection H as _ <- end.
      apply utf8_decode_well_formed.
    + match goal with H : Send _ _ _ = Send _ _ _ |- _ =>
        injection H as _ _ <- end.
      apply utf8_decode_well_formed.
  - destruct (decide (slug ∈ object_prototype)) as [Hp | Hp].
    + rewrite (view_inherited c slug w Hr Hp), (raw_inherited c slug w Hr Hp).
      split; intros; discriminate.
    + rewrite (view_undefined c slug w Hr Hp), (raw_undefined c slug w Hr Hp).
      unfold answer; cbn [fst]. split; intros; try discriminate.
      match goal with H : Send _ _ _ = Send _ _ _ |- _ =>
        injection H as _ _ <- end.
      reflexivity.
Qed.

(** A file that is not UTF-8 is shown with U+FFFD in place of each
    ill-formed run. *)
Lemma shown_text_is_well_formed_witness :
  answer (raw (lucky second_link) drawn
            (after (create local (lucky first_link) binary empty_world))) =
    Send 200 (Some (lit "text/plain; charset=utf-8"))
      [65533; 104; 65533; 65533; 65533; 105] /\
  well_formed [65533; 104; 65533; 65533; 65533; 105] = true.
Proof.
  split; [reflexivity |].
  apply (proj2 (shown_text_is_well_formed (lucky second_link) drawn
                  (after (create local (lucky first_link) binary empty_world)))
           200 (Some (lit "text/plain; charset=utf-8"))).
  reflexivity.
Defined.

(** X3. When the create handler takes the caller's filename, what it
    takes is not empty, begins and ends with a character that is not
    white space, and is the given name with only white space cut from
    its two ends. *)
Theorem provided_filename_is_trimmed (req : request) (f : jsstring) :
  filenameProvided req = Some f ->
  f <> [] /\
  (forall c, head f = Some c -> is_space c = false) /\
  (forall c, last f = Some c -> is_space c = false) /\
  exists given pre post,
    body_filename req = Some given /\ given = pre ++ f ++ post /\
    blank pre /\ blank post.
Proof.
  unfold filenameProvided. intros Hf.
  destruct (body_filename req) as [given |]; [| discriminate].
  destruct (truthy given && truthy (trim given)) eqn:Ht; [| discriminate].
  injection Hf as <-.
  apply andb_true_iff in Ht as [_ Ht].
  destruct (trim_split given) as [pre [post [Hsplit [Hpre [Hpost [Hh Hl]]]]]].
  split; [destruct (trim given); [discriminate | discriminate] |].
  split; [exact Hh |]. split; [exact Hl |].
  exists given, pre, post. split; [reflexivity |].
  split; [exact Hsplit |]. split; assumption.
Qed.

Lemma provided_filename_is_trimmed_witness :
  lit "notes v2.txt" <> [] /\
  (forall c, head (lit "notes v2.txt") = Some c -> is_space c = false) /\
  (forall c, last (lit "notes v2.txt") = Some c -> is_space c = false) /\
  exists given pre post,
    body_filename padded = Some given /\
    given = pre ++ lit "notes v2.txt" ++ post /\
    blank pre /\ blank post.
Proof.
  apply (provided_filename_is_trimmed padded (lit "notes v2.txt")).
  reflexivity.
Defined.

(** X4. The slug made of sixteen random bytes is thirty-two characters
    long, all of them digits [0-9a-f], and is no name that
    [Object.prototype] provides. *)
Theorem slug_is_32_hex_digits (c : chance) :
  proper c ->
  length (slug_of c) = 32%nat /\
  hex_string (slug_of c) = true /\
  slug_of c ∉ object_prototype.
Proof.
  intros [Hlen Hbytes].
  destruct (hex_encode_shape _ Hbytes) as [Hhex Hl].
  unfold slug_of. rewrite Hl, Hlen.
  split; [reflexivity |]. split; [assumption |].
  apply hex_string_not_inherited. assumption.
Qed.

Lemma slug_is_32_hex_digits_witness :
  length (slug_of (lucky first_link)) = 32%nat /\
  hex_string (slug_of (lucky first_link)) = true /\
  slug_of (lucky first_link) ∉ object_prototype.
Proof.
  apply (slug_is_32_hex_digits (lucky first_link)).
  split; [reflexivity |]. unfold bytes. cbn. repeat constructor; lia.
Defined.

(** X5. Two draws of random bytes that differ give slugs that differ:
    the hex form loses nothing. *)
Theorem distinct_draws_give_distinct_slugs (c1 c2 : chance) :
  bytes (randomBytes c1) -> bytes (randomBytes c2) ->
  randomBytes c1 <> randomBytes c2 ->
  slug_of c1 <> slug_of c2.
Proof.
  intros H1 H2 Hne Heq. apply Hne.
  apply hex_encode_inj; assumption.
Qed.

Lemma distinct_draws_give_distinct_slugs_witness :
  slug_of (lucky first_link) <> slug_of (elsewhere first_link).
Proof.
  apply (distinct_draws_give_distinct_slugs
           (lucky first_link) (elsewhere first_link)).
  - unfold bytes. cbn. repeat constructor; lia.
  - unfold bytes. cbn. repeat constructor; lia.
  - cbn. discriminate.
Defined.

(** X6. For a slug written in hex digits only (every slug create
    issues is) that the store does not hold, view and raw both answer
    404, after reading the document and nothing else: nothing is
    downloaded and the world is as before. *)
Theorem absent_hex_slug_is_not_found
    (c : chance) (slug : jsstring) (w : world) :
  hex_string slug = true ->
  db_file w !! slug = None ->
  view c slug w = (Send 404 None (lit "Paste not found"), w, [EReadDB]) /\
  raw c slug w = (Send 404 None (lit "Not found"), w, [EReadDB]).
Proof.
  intros Hhex Hnone.
  assert (Hp : slug ∉ object_prototype)
    by (apply hex_string_not_inherited; assumption).
  split; [apply view_undefined | apply raw_undefined]; assumption.
Qed.

Lemma absent_hex_slug_is_not_found_witness :
  view offline (slug_of (elsewhere first_link)) pasted =
    (Send 404 None (lit "Paste not found"), pasted, [EReadDB]) /\
  raw offline (slug_of (elsewhere first_link)) pasted =
    (Send 404 None (lit "Not found"), pasted, [EReadDB]).
Proof.
  apply (absent_hex_slug_is_not_found offline
           (slug_of (elsewhere first_link)) pasted).
  - reflexivity.
  - vm_compute. reflexivity.
Defined.

(** X7. Raw and view treat a slug alike: they do the same things in
    the same order and leave the same world; where view renders a text,
    raw sends that text as [text/plain]; where view redirects, raw
    redirects to the same target; where view answers 404, so does
    raw. *)
Theorem raw_agrees_with_view (c : chance) (slug : jsstring) (w : world) :
  after (raw c slug w) = after (view c slug w) /\
  trace (raw c slug w) = trace (view c slug w) /\
  match answer (view c slug w) with
  | Render _ d =>
      answer (raw c slug w) =
        Send 200 (Some (lit "text/plain; charset=utf-8")) (l_text d)
  | Redirect target => answer (raw c slug w) = Redirect target
  | Send status _ _ =>
      status = 404 /\
      answer (raw c slug w) = Send 404 None (lit "Not found")
  | Json _ _ => False
  end.
Proof.
  destruct (db_file w !! slug) as [r |] eqn:Hr.
  - rewrite (view_own c slug w r Hr), (raw_own c slug w r Hr).
    unfold answer, after, trace; cbn [fst snd].
    split; [reflexivity |]. split; [reflexivity |].
    destruct (if download_fails c then None else mega_links w !! megaLink r);
      reflexivity.
  - destruct (decide (slug ∈ object_prototype)) as [Hp | Hp].
    + rewrite (view_inherited c slug w Hr Hp), (raw_inherited c slug w Hr Hp).
      repeat split.
    + rewrite (view_undefined c slug w Hr Hp), (raw_undefined c slug w Hr Hp).
      repeat split.
Qed.

(** X8. Starting from an empty store, after any sequence of requests
    every record in the store has a filename and a language that are
    not empty and a link the account dereferences; so a view or a raw
    fetch of any stored slug, the download succeeding, shows the bytes
    behind the link and does not fall back to a redirect. *)
Theorem served_store_is_readable
    (e : env) (ks : list (chance * call)) (c : chance)
    (slug : jsstring) (r : paste) :
  db_file (serve e ks empty_world).2 !! slug = Some r ->
  download_fails c = false ->
  filename r <> [] /\ language r <> [] /\
  exists buf,
    mega_links (serve e ks empty_world).2 !! megaLink r = Some buf /\
    answer (view c slug (serve e ks empty_world).2) =
      Render (lit "paste")
        {| l_slug := slug; l_text := utf8_decode buf;
           l_filename := Some (filename r); l_language := Some (language r);
           l_megaLink := Some (megaLink r) |} /\
    answer (raw c slug (serve e ks empty_world).2) =
      Send 200 (Some (lit "text/plain; charset=utf-8")) (utf8_decode buf).
Proof.
  intros Hr Hnet.
  assert (Hok : readable (serve e ks empty_world).2).
  { apply (serve_keeps e readable (fun _ => True)).
    - intros c0 k w _. apply handle_readable.
    - apply Forall_always.
    - apply empty_readable. }
  destruct (Hok slug r Hr) as [Hf [Hl [buf Hbuf]]].
  split; [assumption |]. split; [assumption |].
  exists buf. split; [assumption |].
  rewrite (view_own c slug _ r Hr), (raw_own c slug _ r Hr).
  unfold answer; cbn [fst]. rewrite Hnet, Hbuf. split; reflexivity.
Qed.

Lemma served_store_is_readable_witness :
  lit "a.py" <> [] /\ lit "python" <> [] /\
  exists buf,
    mega_links
      (serve local ((lucky first_link, PostPaste hello) :: afterwards)
         empty_world).2 !! second_link = Some buf /\
    answer
      (view (lucky first_link) (slug_of (elsewhere second_link))
         (serve local ((lucky first_link, PostPaste hello) :: afterwards)
            empty_world).2) =
      Render (lit "paste")
        {| l_slug := slug_of (elsewhere second_link);
           l_text := utf8_decode buf;
           l_filename := Some (lit "a.py");
           l_language := Some (lit "python");
           l_megaLink := Some second_link |} /\
    answer
      (raw (lucky first_link) (slug_of (elsewhere second_link))
         (serve local ((lucky first_link, PostPaste hello) :: afterwards)
            empty_world).2) =
      Send 200 (Some (lit "text/plain; charset=utf-8")) (utf8_decode buf).
Proof.
  apply (served_store_is_readable local
           ((lucky first_link, PostPaste hello) :: afterwards)
           (lucky first_link) (slug_of (elsewhere second_link))
           {| filename := lit "a.py"; language := lit "python";
              megaLink := second_link;
              createdAt := lit "2024-05-01T10:10:00.000Z" |}).
  - vm_compute. reflexivity.
  - reflexivity.
Defined.

(** X9. Starting from an empty store, when every draw is sixteen
    bytes, every key of the store after any sequence of requests is a
    slug of thirty-two hex digits; no key is a name of
    [Object.prototype]. *)
Theorem store_keys_are_slugs
    (e : env) (ks : list (chance * call)) (slug : jsstring) :
  Forall (fun ck => proper ck.1) ks ->
  is_Some (db_file (serve e ks empty_world).2 !! slug) ->
  length slug = 32%nat /\ hex_string slug = true /\
  slug ∉ object_prototype.
Proof.
  intros Hall Hsome.
  assert (Hkeys :
    forall s, is_Some (db_file (serve e ks empty_world).2 !! s) ->
              length s = 32%nat /\ hex_string s = true).
  { apply (serve_keeps e
             (fun w => forall s, is_Some (db_file w !! s) ->
                                 length s = 32%nat /\ hex_string s = true)
             (fun ck => proper ck.1)).
    - intros c k w Hc Hw s Hs.
      destruct (handle_keys e c k w s Hc Hs) as [Hold | Hnew];
        [apply Hw; assumption | assumption].
    - assumption.
    - intros s [r Hs]. cbn in Hs. rewrite lookup_empty in Hs. discriminate. }
  destruct (Hkeys slug Hsome) as [Hlen Hhex].
  split; [assumption |]. split; [assumption |].
  apply hex_string_not_inherited. assumption.
Qed.

Lemma store_keys_are_slugs_witness :
  length drawn = 32%nat /\ hex_string drawn = true /\
  drawn ∉ object_prototype.
Proof.
  apply (store_keys_are_slugs local
           ((lucky first_link, PostPaste hello) :: afterwards) drawn).
  - repeat (constructor;
            [split; [reflexivity | unfold bytes; cbn; repeat constructor; lia] |]).
    constructor.
  - vm_compute. eexists. reflexivity.
Defined.



(** ** Beyond the claims: requests in flight together *)

Module TurnFacts.
Import JS Server Facts Turns.










End TurnFacts.

Import Turns TurnFacts.



(** ** Beyond the claims: the document on disk *)

Module JsonFacts.
Import JS Text Server Utf8 Json.

(** *** Strings *)

Lemma hex_value_digit (n : Z) :
  0 <= n <= 15 -> hex_value (hex_digit n) = Some n.
Proof.
  intros Hn. unfold hex_value, hex_digit.
  destruct (Z.ltb_spec n 10); decide_tests; cbn [andb orb]; f_equal; lia.
Qed.

Lemma parse_string_cons (c : Z) (r : jsstring) :
  c <> 34 -> c <> 92 -> 32 <= c ->
  parse_string (c :: r) =
  match parse_string r with
  | Some (t, rest) => Some (c :: t, rest)
  | None => None
  end.
Proof.
  intros H1 H2 H3. cbn [parse_string].
  destruct (Z.eqb_spec c 34); [contradiction |].
  destruct (Z.eqb_spec c 92); [contradiction |].
  destruct (Z.ltb_spec c 32); [lia | reflexivity].
Qed.

Lemma parse_string_escape (x u : Z) (r : jsstring) :
  x <> 117 -> unescape x = Some u ->
  parse_string (92 :: x :: r) =
  match parse_string r with
  | Some (t, rest) => Some (u :: t, rest)
  | None => None
  end.
Proof.
  intros Hx Hu. cbn [parse_string]. change (92 =? 34) with false.
  change (92 =? 92) with true. cbn match.
  destruct (Z.eqb_spec x 117); [contradiction |]. rewrite Hu. reflexivity.
Qed.

Lemma parse_string_unicode (c : Z) (r : jsstring) :
  0 <= c <= 65535 ->
  parse_string (unicode_escape c ++ r) =
  match parse_string r with
  | Some (t, rest) => Some (c :: t, rest)
  | None => None
  end.
Proof.
  intros Hc. unfold unicode_escape, hex4. cbn [app parse_string].
  change (92 =? 34) with false. change (92 =? 92) with true.
  change (117 =? 117) with true. cbn match.
  rewrite !hex_value_digit by zlia.
  replace (((c / 4096 * 16 + (c / 256) mod 16) * 16 + (c / 16) mod 16) * 16
           + c mod 16) with c by zlia.
  reflexivity.
Qed.

Lemma parse_string_quote_unit (c : Z) (r : jsstring) :
  0 <= c <= 65535 ->
  parse_string (quote_unit c ++ r) =
  match parse_string r with
  | Some (t, rest) => Some (c :: t, rest)
  | None => None
  end.
Proof.
  intros Hc. unfold quote_unit.
  destruct (Z.eqb_spec c 8) as [-> |]; [reflexivity |].
  destruct (Z.eqb_spec c 9) as [-> |]; [reflexivity |].
  destruct (Z.eqb_spec c 10) as [-> |]; [reflexivity |].
  destruct (Z.eqb_spec c 12) as [-> |]; [reflexivity |].
  destruct (Z.eqb_spec c 13) as [-> |]; [reflexivity |].
  destruct (Z.eqb_spec c 34) as [-> |]; [reflexivity |].
  destruct (Z.eqb_spec c 92) as [-> |]; [reflexivity |].
  destruct (Z.ltb_spec c 32).
  - apply parse_string_unicode. assumption.
  - cbn [app]. apply parse_string_cons; assumption.
Qed.

(** Reading back what [quote_units] wrote, up to the closing quote. *)
Lemma parse_string_quote_units (n : nat) :
  forall (s rest : jsstring),
    (length s <= n)%nat -> units s ->
    parse_string (quote_units s ++ 34 :: rest) = Some (s, rest).
Proof.
  induction n as [| n IH]; intros s rest Hlen Hs.
  { destruct s; [reflexivity | cbn in Hlen; lia]. }
  destruct s as [| c r]; [reflexivity |].
  inversion Hs as [| ? ? Hc Hr]; subst.
  cbn [quote_units]. cbn [length] in Hlen.
  destruct (is_high c) eqn:Hh.
  - destruct r as [| d r'].
    + rewrite parse_string_unicode by assumption. reflexivity.
    + inversion Hr as [| ? ? Hd Hr']; subst. cbn [length] in Hlen.
      destruct (is_low d) eqn:Hl.
      * unfold is_high in Hh. unfold is_low in Hl.
        apply andb_true_iff in Hh as [Hh1 Hh2].
        apply andb_true_iff in Hl as [Hl1 Hl2].
        apply Z.leb_le in Hh1, Hh2, Hl1, Hl2.
        cbn [app]. rewrite parse_string_cons by lia.
        rewrite parse_string_cons by lia.
        rewrite IH by (try lia; assumption). reflexivity.
      * rewrite <- app_assoc, parse_string_unicode by assumption.
        rewrite IH by (cbn [length]; try lia; assumption). reflexivity.
  - destruct (is_low c) eqn:Hl.
    + rewrite <- app_assoc, parse_string_unicode by assumption.
      rewrite IH by (try lia; assumption). reflexivity.
    + rewrite <- app_assoc, parse_string_quote_unit by assumption.
      rewrite IH by (try lia; assumption). reflexivity.
Qed.

Lemma parse_string_quote (s rest : jsstring) :
  units s -> parse_string (quote_units s ++ [34] ++ rest) = Some (s, rest).
Proof.
  intros Hs. apply (parse_string_quote_units (length s)); [lia | assumption].
Qed.

(** *** White space *)

Lemma skip_ws_blanks (t s : jsstring) : blanks t -> skip_ws (t ++ s) = skip_ws s.
Proof.
  induction 1 as [| c t Hc Ht IH]; [reflexivity |].
  cbn [app skip_ws]. rewrite Hc. exact IH.
Qed.

Lemma skip_ws_stop (c : Z) (s : jsstring) :
  is_ws c = false -> skip_ws (c :: s) = c :: s.
Proof. intros Hc. cbn [skip_ws]. rewrite Hc. reflexivity. Qed.

Lemma parse_value_blanks (t s : jsstring) (fuel : nat) :
  blanks t -> parse_value fuel (t ++ s) = parse_value fuel s.
Proof.
  intros Ht. destruct fuel; [reflexivity |].
  cbn [parse_value]. rewrite skip_ws_blanks by assumption. reflexivity.
Qed.

Lemma parse_members_blanks (t s : jsstring) (fuel : nat) :
  blanks t -> parse_members fuel (t ++ s) = parse_members fuel s.
Proof.
  intros Ht. destruct fuel; [reflexivity |].
  cbn [parse_members]. rewrite skip_ws_blanks by assumption. reflexivity.
Qed.

(** *** Values *)

Lemma parses_as_quote (s : jsstring) :
  units s -> parses_as 1 (quote s) (VString s).
Proof.
  intros Hs fuel rest Hfuel. destruct fuel as [| fuel]; [lia |].
  unfold quote. cbn [app parse_value].
  rewrite skip_ws_stop by reflexivity.
  change (34 =? 34) with true. cbn match.
  rewrite <- app_assoc, parse_string_quote by assumption. reflexivity.
Qed.

(** One member and what follows it. *)
Lemma parse_members_member (fuel n : nat) (k t tail : jsstring) (v : value) :
  units k -> parses_as n t v -> (n <= fuel)%nat ->
  parse_members (S fuel) (quote k ++ [58; 32] ++ t ++ tail) =
  match skip_ws tail with
  | c3 :: r4 =>
      if c3 =? 44 then
        match parse_members fuel r4 with
        | Some (ms, rest) => Some ((k, v) :: ms, rest)
        | None => None
        end
      else if c3 =? 125 then Some ([(k, v)], r4)
      else None
  | [] => None
  end.
Proof.
  intros Hk Ht Hfuel. unfold quote. cbn [app parse_members].
  rewrite skip_ws_stop by reflexivity.
  change (34 =? 34) with true. cbn match.
  rewrite <- app_assoc, parse_string_quote by assumption.
  cbn [mbind option_bind app]. rewrite skip_ws_stop by reflexivity.
  change (58 =? 58) with true. cbn match.
  change (32 :: t ++ tail) with ([32] ++ t ++ tail).
  rewrite (parse_value_blanks [32]) by (repeat constructor).
  rewrite (Ht fuel tail Hfuel). cbn [mbind option_bind].
  destruct (skip_ws tail) as [| c3 r4]; [reflexivity |].
  destruct (c3 =? 44); [| reflexivity].
  destruct (parse_members fuel r4) as [[ms rest] |]; reflexivity.
Qed.

(** The members of an object, written one per line, read back in
    order. *)
Lemma parse_members_join (n : nat) (indent : jsstring) :
  blanks indent ->
  forall ms : list (jsstring * (jsstring * value)),
    ms <> [] ->
    Forall (fun m => units m.1 /\ parses_as n m.2.1 m.2.2) ms ->
    forall fuel rest,
      (n + length ms <= fuel)%nat ->
      parse_members fuel
        (join ([44; 10] ++ indent ++ [32; 32])
           (map (fun m => quote m.1 ++ [58; 32] ++ m.2.1) ms)
         ++ [10] ++ indent ++ [125] ++ rest) =
      Some (map (fun m => (m.1, m.2.2)) ms, rest).
Proof.
  intros Hindent. induction ms as [| [k [t v]] ms IH]; [contradiction |].
  intros _ Hall fuel rest Hfuel.
  inversion Hall as [| ? ? [Hk Ht] Hms]; subst. cbn [fst snd] in Hk, Ht.
  cbn [length] in Hfuel. destruct fuel as [| fuel]; [lia |].
  destruct ms as [| m' ms'].
  - cbn [map join fst snd]. rewrite <- !app_assoc.
    rewrite (parse_members_member fuel n k t _ v) by (try lia; assumption).
    rewrite (skip_ws_blanks [10]) by (repeat constructor).
    rewrite skip_ws_blanks by assumption.
    cbn [app]. rewrite skip_ws_stop by reflexivity. reflexivity.
  - change (map (fun m => quote m.1 ++ [58; 32] ++ m.2.1)
              ((k, (t, v)) :: m' :: ms'))
      with ((quote k ++ [58; 32] ++ t) ::
            map (fun m => quote m.1 ++ [58; 32] ++ m.2.1) (m' :: ms')).
    change (join ?sep (?p :: map ?f (m' :: ms')))
      with (p ++ sep ++ join sep (map f (m' :: ms'))).
    rewrite <- !app_assoc.
    rewrite (parse_members_member fuel n k t _ v) by (try lia; assumption).
    cbn [app]. rewrite skip_ws_stop by reflexivity.
    change (44 =? 44) with true. cbn match.
    change (10 :: ?x) with ([10] ++ x).
    rewrite (parse_members_blanks [10]) by (repeat constructor).
    rewrite parse_members_blanks by assumption.
    change (32 :: 32 :: ?x) with ([32; 32] ++ x).
    rewrite (parse_members_blanks [32; 32]) by (repeat constructor).
    assert (Hrest : (n + length (m' :: ms') <= fuel)%nat) by lia.
    specialize (IH ltac:(discriminate) Hms fuel rest Hrest).
    cbn [app] in IH. rewrite IH. reflexivity.
Qed.

Lemma parse_value_object (fuel : nat) (r r' : jsstring) (c' : Z) :
  skip_ws r = c' :: r' -> c' <> 125 ->
  parse_value (S fuel) (123 :: r) =
  match parse_members fuel r with
  | Some (ms, rest) => Some (object_of ms, rest)
  | None => None
  end.
Proof.
  intros Hr Hc. cbn [parse_value]. rewrite skip_ws_stop by reflexivity.
  change (123 =? 34) with false. change (123 =? 123) with true. cbn match.
  rewrite Hr. destruct (Z.eqb_spec c' 125); [contradiction |].
  destruct (parse_members fuel r) as [[ms rest] |]; reflexivity.
Qed.

Lemma join_starts_quoted
    (sep tail : jsstring) (m : jsstring * (jsstring * value))
    (ms : list (jsstring * (jsstring * value))) :
  exists x,
    join sep (map (fun m => quote m.1 ++ [58; 32] ++ m.2.1) (m :: ms)) ++ tail =
    34 :: x.
Proof. destruct ms; cbn; eexists; reflexivity. Qed.

(** An object written by [stringify_object] reads back as the object
    of its members. *)
Lemma parses_as_object
    (n : nat) (indent : jsstring) (ms : list (jsstring * (jsstring * value))) :
  blanks indent ->
  Forall (fun m => units m.1 /\ parses_as n m.2.1 m.2.2) ms ->
  parses_as (S (n + length ms))
    (stringify_object indent (map (fun m => (m.1, m.2.1)) ms))
    (object_of (map (fun m => (m.1, m.2.2)) ms)).
Proof.
  intros Hindent Hall fuel rest Hfuel.
  destruct fuel as [| fuel]; [lia |].
  destruct ms as [| m ms]; [reflexivity |].
  unfold stringify_object.
  change (map (fun m0 : jsstring * (jsstring * value) => (m0.1, m0.2.1)) (m :: ms))
    with ((m.1, m.2.1) ::
          map (fun m0 : jsstring * (jsstring * value) => (m0.1, m0.2.1)) ms).
  cbv iota.
  change ((m.1, m.2.1) ::
          map (fun m0 : jsstring * (jsstring * value) => (m0.1, m0.2.1)) ms)
    with (map (fun m0 : jsstring * (jsstring * value) => (m0.1, m0.2.1)) (m :: ms)).
  rewrite map_map. cbn [fst snd].
  rewrite <- !app_assoc.
  destruct (join_starts_quoted ([44; 10] ++ indent ++ [32; 32])
              ([10] ++ indent ++ [125] ++ rest) m ms) as [x Hx].
  change ([123; 10] ++ ?y) with (123 :: ([10] ++ y)).
  rewrite (parse_value_object fuel _ x 34); [| | discriminate].
  - rewrite (parse_members_blanks [10]) by (repeat constructor).
    rewrite parse_members_blanks by assumption.
    rewrite (parse_members_blanks [32; 32]) by (repeat constructor).
    rewrite (parse_members_join n indent Hindent (m :: ms)
               ltac:(discriminate) Hall fuel rest) by lia.
    reflexivity.
  - rewrite (skip_ws_blanks [10]) by (repeat constructor).
    rewrite skip_ws_blanks by assumption.
    rewrite (skip_ws_blanks [32; 32]) by (repeat constructor).
    rewrite Hx. apply skip_ws_stop. reflexivity.
Qed.

(** *** Objects without repeated keys *)

Lemma set_member_fresh (ms : list (jsstring * value)) (k : jsstring) (v : value) :
  k ∉ map fst ms -> set_member ms k v = ms ++ [(k, v)].
Proof.
  induction ms as [| [k' v'] ms IH]; intros Hk; [reflexivity |].
  cbn [set_member map fst] in *.
  rewrite bool_decide_eq_false_2
    by (intros ->; apply Hk; apply elem_of_cons; left; reflexivity).
  rewrite IH; [reflexivity |].
  intros Hin. apply Hk. apply elem_of_cons. right. assumption.
Qed.

Lemma fold_set_member (raw : list (jsstring * value)) :
  forall acc,
    NoDup (map fst acc ++ map fst raw) ->
    fold_left (fun ms kv => set_member ms kv.1 kv.2) raw acc = acc ++ raw.
Proof.
  induction raw as [| [k v] raw IH]; intros acc Hnd.
  - cbn. rewrite app_nil_r. reflexivity.
  - cbn [fold_left fst snd map] in *.
    apply NoDup_app in Hnd as [Hacc [Hdisj Hraw]].
    apply NoDup_cons in Hraw as [Hk Hraw].
    rewrite set_member_fresh
      by (intros Hin; apply (Hdisj k Hin); apply elem_of_cons; left; reflexivity).
    rewrite IH; [rewrite <- app_assoc; reflexivity |].
    rewrite map_app. cbn [map fst]. rewrite <- app_assoc. cbn [app].
    apply NoDup_app. split; [assumption |]. split.
    + intros x Hx Hin. apply (Hdisj x Hx). assumption.
    + apply NoDup_cons. split; assumption.
Qed.

Lemma object_of_nodup (raw : list (jsstring * value)) :
  NoDup (map fst raw) -> object_of raw = VObject raw.
Proof.
  intros Hnd. unfold object_of. rewrite fold_set_member; [reflexivity |].
  exact Hnd.
Qed.

(** *** Records and the document *)

Lemma units_check (s : jsstring) :
  forallb (fun c => (0 <=? c) && (c <=? 65535)) s = true -> units s.
Proof.
  unfold units. rewrite forallb_forall, Forall_forall.
  intros H c Hc. apply list_elem_of_In in Hc.
  specialize (H c Hc). apply andb_true_iff in H as [H1 H2].
  apply Z.leb_le in H1, H2. lia.
Qed.

Lemma units_lit_fields :
  units (lit "filename") /\ units (lit "language") /\
  units (lit "megaLink") /\ units (lit "createdAt").
Proof. repeat split; apply units_check; reflexivity. Qed.

Lemma parses_as_record (r : paste) :
  record_units r -> parses_as 6 (stringify_record r) (document_record r).
Proof.
  intros [Hf [Hl [Hm Hc]]].
  destruct units_lit_fields as [Kf [Kl [Km Kc]]].
  apply (parses_as_object 1 [32; 32]
           [(lit "filename", (quote (filename r), VString (filename r)));
            (lit "language", (quote (language r), VString (language r)));
            (lit "megaLink", (quote (megaLink r), VString (megaLink r)));
            (lit "createdAt", (quote (createdAt r), VString (createdAt r)))]).
  - repeat constructor.
  - repeat (constructor; [split; [assumption | apply parses_as_quote; assumption] |]).
    constructor.
Qed.

Lemma parses_as_document (entries : list (jsstring * paste)) :
  NoDup (map fst entries) -> entries_units entries ->
  parses_as (S (6 + length entries)) (JSON_stringify entries) (document entries).
Proof.
  intros Hnd Hunits.
  pose proof (parses_as_object 6 []
                (map (fun kr : jsstring * paste =>
                        (kr.1, (stringify_record kr.2, document_record kr.2)))
                   entries)) as H.
  rewrite !map_map, length_map in H. cbn [fst snd] in H.
  rewrite object_of_nodup in H
    by (rewrite map_map; cbn [fst]; exact Hnd).
  apply H; [constructor |].
  apply Forall_map. unfold entries_units in Hunits.
  eapply Forall_impl; [exact Hunits |].
  intros [k r] [Hk Hr]. cbn [fst snd] in *.
  split; [assumption | apply parses_as_record; assumption].
Qed.

Lemma length_join (sep : jsstring) (parts : list jsstring) :
  Forall (fun p => (1 <= length p)%nat) parts ->
  (length parts <= length (join sep parts))%nat.
Proof.
  induction 1 as [| p parts Hp Hparts IH]; [cbn; lia |].
  destruct parts as [| p' parts'].
  - cbn. lia.
  - change (join sep (p :: p' :: parts'))
      with (p ++ sep ++ join sep (p' :: parts')).
    rewrite !length_app. cbn [length] in *. lia.
Qed.

Lemma length_stringify_object
    (indent : jsstring) (members : list (jsstring * jsstring)) :
  members <> [] ->
  (6 + length members <= length (stringify_object indent members))%nat.
Proof.
  unfold stringify_object.
  destruct members as [| m ms] eqn:E; [contradiction |]. intros _. rewrite <- E.
  pose proof (length_join ([44; 10] ++ indent ++ [32; 32])
    (map (fun m : jsstring * jsstring => quote m.1 ++ [58; 32] ++ m.2) members))
    as Hj.
  rewrite length_map in Hj.
  rewrite !length_app. cbn [length].
  assert (Hparts :
    Forall (fun p : jsstring => (1 <= length p)%nat)
      (map (fun m : jsstring * jsstring => quote m.1 ++ [58; 32] ++ m.2)
         members)).
  { apply Forall_map. apply Forall_forall. intros x _.
    unfold quote. cbn [app length]. lia. }
  specialize (Hj Hparts). lia.
Qed.

(** [JSON.parse(JSON.stringify(db, null, 2))] is [db]. *)
Lemma JSON_parse_stringify (entries : list (jsstring * paste)) :
  NoDup (map fst entries) -> entries_units entries ->
  JSON_parse (JSON_stringify entries) = Some (document entries).
Proof.
  intros Hnd Hunits.
  destruct entries as [| kr more] eqn:E; [reflexivity |]. rewrite <- E in *.
  unfold JSON_parse.
  pose proof (parses_as_document entries Hnd Hunits
                (S (length (JSON_stringify entries))) []) as H.
  rewrite app_nil_r in H. rewrite H; [reflexivity |].
  pose proof (length_stringify_object []
    (map (fun kr : jsstring * paste => (kr.1, stringify_record kr.2)) entries))
    as Hlen.
  rewrite length_map in Hlen. unfold JSON_stringify.
  assert (map (fun kr : jsstring * paste => (kr.1, stringify_record kr.2))
            entries <> []) by (rewrite E; discriminate).
  specialize (Hlen ltac:(assumption)). lia.
Qed.

(** *** The text is well formed *)

Lemma passes_nil : passes [].
Proof. intros r. reflexivity. Qed.

Lemma passes_app (a b : jsstring) : passes a -> passes b -> passes (a ++ b).
Proof. intros Ha Hb r. rewrite <- app_assoc, Ha, Hb. reflexivity. Qed.

Lemma passes_plain (t : jsstring) : Forall plain t -> passes t.
Proof.
  induction 1 as [| c t Hc Ht IH]; [apply passes_nil |].
  intros r. cbn [app well_formed]. unfold is_high, is_low, is_unit.
  unfold plain in Hc. rewrite <- (IH r).
  decide_tests; reflexivity.
Qed.

Lemma plain_check (t : jsstring) :
  forallb (fun c => (0 <=? c) && (c <? 55296)) t = true -> Forall plain t.
Proof.
  rewrite forallb_forall, Forall_forall.
  intros H c Hc. apply list_elem_of_In in Hc.
  specialize (H c Hc). apply andb_true_iff in H as [H1 H2].
  apply Z.leb_le in H1. apply Z.ltb_lt in H2. left. lia.
Qed.

Lemma passes_pair (c d : Z) :
  is_high c = true -> is_low d = true -> passes [c; d].
Proof. intros Hc Hd r. cbn [app well_formed]. rewrite Hc, Hd. reflexivity. Qed.

Lemma hex_digit_plain (n : Z) : 0 <= n <= 15 -> plain (hex_digit n).
Proof. unfold plain, hex_digit. intros Hn. destruct (Z.ltb_spec n 10); lia. Qed.

Lemma passes_unicode_escape (c : Z) :
  0 <= c <= 65535 -> passes (unicode_escape c).
Proof.
  intros Hc. apply passes_plain. unfold unicode_escape, hex4.
  repeat (constructor; [first [apply hex_digit_plain; zlia | left; lia] |]).
  constructor.
Qed.

Lemma passes_quote_unit (c : Z) :
  0 <= c <= 65535 -> is_high c = false -> is_low c = false ->
  passes (quote_unit c).
Proof.
  intros Hc Hh Hl. unfold quote_unit.
  repeat match goal with
  | |- context [if ?x =? ?y then _ else _] =>
      destruct (Z.eqb_spec x y);
      [apply passes_plain, plain_check; reflexivity |]
  end.
  destruct (Z.ltb_spec c 32); [apply passes_unicode_escape; assumption |].
  apply passes_plain. constructor; [| constructor].
  unfold is_high, is_low in *. apply andb_false_iff in Hh, Hl.
  rewrite !Z.leb_gt in Hh, Hl. unfold plain. lia.
Qed.

Lemma passes_quote_units (n : nat) :
  forall s : jsstring,
    (length s <= n)%nat -> units s -> passes (quote_units s).
Proof.
  induction n as [| n IH]; intros s Hlen Hs.
  { destruct s; [apply passes_nil | cbn in Hlen; lia]. }
  destruct s as [| c r]; [apply passes_nil |].
  inversion Hs as [| ? ? Hc Hr]; subst.
  cbn [quote_units]. cbn [length] in Hlen.
  destruct (is_high c) eqn:Hh.
  - destruct r as [| d r']; [apply passes_unicode_escape; assumption |].
    inversion Hr as [| ? ? Hd Hr']; subst. cbn [length] in Hlen.
    destruct (is_low d) eqn:Hl.
    + apply (passes_app [c; d]); [apply passes_pair; assumption |].
      apply IH; [lia | assumption].
    + apply passes_app; [apply passes_unicode_escape; assumption |].
      apply IH; [cbn [length]; lia | assumption].
  - destruct (is_low c) eqn:Hl.
    + apply passes_app; [apply passes_unicode_escape; assumption |].
      apply IH; [lia | assumption].
    + apply passes_app; [apply passes_quote_unit; assumption |].
      apply IH; [lia | assumption].
Qed.

Lemma passes_quote (s : jsstring) : units s -> passes (quote s).
Proof.
  intros Hs. unfold quote. apply (passes_app [34]).
  - apply passes_plain, plain_check. reflexivity.
  - apply passes_app; [apply (passes_quote_units (length s)); [lia | assumption] |].
    apply passes_plain, plain_check. reflexivity.
Qed.

Lemma passes_join (sep : jsstring) (parts : list jsstring) :
  passes sep -> Forall passes parts -> passes (join sep parts).
Proof.
  intros Hsep. induction 1 as [| p parts Hp Hparts IH]; [apply passes_nil |].
  destruct parts as [| p' parts']; [exact Hp |].
  change (join sep (p :: p' :: parts'))
    with (p ++ sep ++ join sep (p' :: parts')).
  apply passes_app; [assumption |]. apply passes_app; assumption.
Qed.

Lemma passes_stringify_object
    (indent : jsstring) (members : list (jsstring * jsstring)) :
  passes indent ->
  Forall (fun m => units m.1 /\ passes m.2) members ->
  passes (stringify_object indent members).
Proof.
  intros Hindent Hall. unfold stringify_object.
  destruct members as [| m ms] eqn:E;
    [apply passes_plain, plain_check; reflexivity |].
  rewrite <- E in *.
  assert (Hlit : forall t, forallb (fun c => (0 <=? c) && (c <? 55296)) t = true ->
                           passes t)
    by (intros t Ht; apply passes_plain, plain_check; assumption).
  apply passes_app; [apply Hlit; reflexivity |].
  apply passes_app; [assumption |].
  apply passes_app; [apply Hlit; reflexivity |].
  apply passes_app.
  - apply passes_join.
    + apply passes_app; [apply Hlit; reflexivity |].
      apply passes_app; [assumption | apply Hlit; reflexivity].
    + apply Forall_map. eapply Forall_impl; [exact Hall |].
      intros [k t] [Hk Ht]. cbn [fst snd] in *.
      apply passes_app; [apply passes_quote; assumption |].
      apply passes_app; [apply Hlit; reflexivity | assumption].
  - apply passes_app; [apply Hlit; reflexivity |].
    apply passes_app; [assumption | apply Hlit; reflexivity].
Qed.

Lemma passes_record (r : paste) : record_units r -> passes (stringify_record r).
Proof.
  intros [Hf [Hl [Hm Hc]]].
  destruct units_lit_fields as [Kf [Kl [Km Kc]]].
  apply passes_stringify_object.
  - apply passes_plain, plain_check. reflexivity.
  - repeat (constructor; [split; [assumption | apply passes_quote; assumption] |]).
    constructor.
Qed.

(** What [writeDB] hands to [fs.writeFileSync] has no unpaired
    surrogate. *)
Lemma JSON_stringify_well_formed (entries : list (jsstring * paste)) :
  entries_units entries -> well_formed (JSON_stringify entries) = true.
Proof.
  intros Hunits.
  assert (Hp : passes (JSON_stringify entries)).
  { apply passes_stringify_object; [apply passes_nil |].
    apply Forall_map. eapply Forall_impl; [exact Hunits |].
    intros [k r] [Hk Hr]. cbn [fst snd] in *.
    split; [assumption | apply passes_record; assumption]. }
  specialize (Hp []). rewrite app_nil_r in Hp. rewrite Hp. reflexivity.
Qed.

(** *** The store a document stands for *)

Lemma record_of_document (r : paste) :
  record_of_value (document_record r) = Some r.
Proof. destruct r. reflexivity. Qed.

Lemma store_of_document (entries : list (jsstring * paste)) :
  store_of (document entries) = Some (list_to_map entries).
Proof.
  unfold document, store_of.
  induction entries as [| [k r] entries IH]; [reflexivity |].
  cbn [map foldr fst snd]. rewrite record_of_document, IH. reflexivity.
Qed.

Lemma assign_keys (entries : list (jsstring * paste)) (slug : jsstring) (r : paste) :
  map fst (assign entries slug r) =
  if bool_decide (slug ∈ map fst entries) then map fst entries
  else map fst entries ++ [slug].
Proof.
  induction entries as [| [k r'] entries IH]; [reflexivity |].
  cbn [assign map fst]. destruct (decide (k = slug)) as [-> | Hne].
  - rewrite bool_decide_eq_true_2 by reflexivity. cbn [map fst].
    rewrite bool_decide_eq_true_2 by (apply elem_of_cons; left; reflexivity).
    reflexivity.
  - rewrite bool_decide_eq_false_2 by assumption. cbn [map fst]. rewrite IH.
    destruct (decide (slug ∈ map fst entries)) as [Hin | Hout].
    + rewrite !bool_decide_eq_true_2;
        [reflexivity | apply elem_of_cons; right; assumption | assumption].
    + rewrite !bool_decide_eq_false_2; [reflexivity | | assumption].
      intros Hin. apply elem_of_cons in Hin as [-> | Hin]; contradiction.
Qed.

Lemma assign_nodup (entries : list (jsstring * paste)) (slug : jsstring) (r : paste) :
  NoDup (map fst entries) -> NoDup (map fst (assign entries slug r)).
Proof.
  intros Hnd. rewrite assign_keys.
  destruct (decide (slug ∈ map fst entries)) as [Hin | Hout].
  - rewrite bool_decide_eq_true_2 by assumption. assumption.
  - rewrite bool_decide_eq_false_2 by assumption.
    apply NoDup_app. split; [assumption |]. split.
    + intros x Hx Hx'. apply elem_of_cons in Hx' as [-> | Hx']; [contradiction |].
      inversion Hx'.
    + apply NoDup_cons. split; [intros H; inversion H | apply NoDup_nil; exact I].
Qed.

Lemma assign_insert (entries : list (jsstring * paste)) (slug : jsstring) (r : paste) :
  NoDup (map fst entries) ->
  (list_to_map (assign entries slug r) : gmap jsstring paste) =
  <[slug := r]> (list_to_map entries).
Proof.
  induction entries as [| [k r'] entries IH]; intros Hnd; [reflexivity |].
  cbn [map fst] in Hnd. apply NoDup_cons in Hnd as [Hk Hnd].
  cbn [assign]. destruct (decide (k = slug)) as [-> | Hne].
  - rewrite bool_decide_eq_true_2 by reflexivity.
    cbn [list_to_map foldr fst snd]. rewrite insert_insert_eq. reflexivity.
  - rewrite bool_decide_eq_false_2 by assumption.
    cbn [list_to_map foldr fst snd].
    change (foldr (fun p : jsstring * paste => <[p.1 := p.2]>) ∅ ?l)
      with (list_to_map l : gmap jsstring paste).
    rewrite (IH Hnd). apply insert_insert_ne. congruence.
Qed.

Lemma assign_units (entries : list (jsstring * paste)) (slug : jsstring) (r : paste) :
  units slug -> record_units r -> entries_units entries ->
  entries_units (assign entries slug r).
Proof.
  intros Hs Hr. unfold entries_units.
  induction 1 as [| [k r'] entries [Hk Hr'] Hrest IH].
  - cbn [assign]. constructor; [split; assumption | constructor].
  - cbn [assign]. destruct (bool_decide (k = slug)).
    + constructor; [split; assumption | assumption].
    + constructor; [split; assumption | assumption].
Qed.

End JsonFacts.

Module DiskFacts.
Import JS Text Server Facts Turns Json JsonFacts.

Lemma units_app (a b : jsstring) : units a -> units b -> units (a ++ b).
Proof. unfold units. intros Ha Hb. apply Forall_app. split; assumption. Qed.

Lemma units_trim_start (s : jsstring) : units s -> units (trim_start s).
Proof.
  unfold units. induction 1 as [| c r Hc Hr IH]; [constructor |].
  cbn [trim_start]. destruct (is_space c); [assumption |].
  constructor; assumption.
Qed.

Lemma units_trim (s : jsstring) : units s -> units (trim s).
Proof.
  intros Hs. unfold trim, trim_end, units.
  apply Forall_rev. apply units_trim_start. apply Forall_rev.
  apply units_trim_start. assumption.
Qed.

Lemma units_hex_encode (b : buffer) : bytes b -> units (hex_encode b).
Proof.
  unfold bytes, units. induction 1 as [| x r Hx Hr IH]; [constructor |].
  cbn [hex_encode flat_map app]. fold (hex_encode r).
  assert (Hd : forall n, 0 <= n <= 15 -> 0 <= hex_digit n <= 65535)
    by (intros n Hn; unfold hex_digit; destruct (Z.ltb_spec n 10); lia).
  constructor; [apply Hd; Utf8.zlia |].
  constructor; [apply Hd; Utf8.zlia | assumption].
Qed.

(** The record a create stores is made of code units when the request,
    the clock and the link are. *)
Lemma created_record_units (c : chance) (req : request) (link : jsstring) :
  optional_units (body_filename req) -> optional_units (body_language req) ->
  bytes (randomBytes c) -> units (date c) -> units link ->
  units (slug_of c) /\ record_units (record_of c req link).
Proof.
  intros Hf Hl Hb Hd Hlink.
  assert (Hslug : units (slug_of c)) by (apply units_hex_encode; assumption).
  assert (Hlang : units (language_of req)).
  { unfold language_of. destruct (body_language req) as [[| x l] |];
      cbn [or_else truthy]; first [exact Hl | apply units_check; reflexivity]. }
  split; [assumption |].
  unfold record_units, record_of. cbn [filename language megaLink createdAt].
  split; [| split; [assumption | split; assumption]].
  unfold filename_of, filenameProvided.
  assert (Hdefault :
    units (slug_of c ++ lit "." ++
           (if bool_decide (language_of req = lit "text") then lit "txt"
            else language_of req))).
  { apply units_app; [assumption |].
    apply units_app; [apply units_check; reflexivity |].
    destruct (bool_decide (language_of req = lit "text"));
      [apply units_check; reflexivity | assumption]. }
  destruct (body_filename req) as [f |]; cbn [or_else]; [| assumption].
  destruct (truthy f && truthy (trim f)); cbn [or_else]; [| assumption].
  destruct (truthy (trim f)); [apply units_trim; exact Hf | assumption].
Qed.

(** The bytes [writeDB] writes decode and parse to the document. *)
Lemma disk_roundtrip (entries : list (jsstring * paste)) :
  NoDup (map fst entries) -> entries_units entries ->
  readDB_file (writeDB_file entries) = Some (document entries).
Proof.
  intros Hnd Hunits.
  unfold readDB_file, writeDB_file. cbn [mbind option_bind].
  rewrite Utf8.utf8_roundtrip by (apply JSON_stringify_well_formed; assumption).
  apply JSON_parse_stringify; assumption.
Qed.

Lemma awkward_units : entries_units awkward.
Proof.
  unfold entries_units, awkward.
  repeat (constructor;
          [split; [apply units_check; reflexivity |];
           repeat split; apply units_check; reflexivity |]).
  constructor.
Qed.

Lemma awkward_nodup : NoDup (map fst awkward).
Proof.
  cbn [map fst awkward]. apply NoDup_cons. split.
  - intros Hin. apply elem_of_cons in Hin as [Hin | Hin];
      [vm_compute in Hin; discriminate | inversion Hin].
  - apply NoDup_cons. split; [intros Hin; inversion Hin | apply NoDup_nil; exact I].
Qed.




End DiskFacts.

Import Json JsonFacts DiskFacts.

(** X12. What [writeDB] writes, [readDB] reads back: for any
    properties with distinct keys, whatever code units their slugs,
    filenames, languages, links and dates hold (quotes, backslashes,
    line breaks, control characters, unpaired surrogates), the bytes of
    [JSON.stringify(db, null, 2)] decode and parse to the same object,
    and that object stands for the store with exactly those records. *)
Theorem document_survives_the_disk (entries : list (jsstring * paste)) :
  NoDup (map fst entries) -> entries_units entries ->
  readDB_file (writeDB_file entries) = Some (document entries) /\
  store_of (document entries) = Some (list_to_map entries).
Proof.
  intros Hnd Hunits. split; [| apply store_of_document].
  apply disk_roundtrip; assumption.
Qed.

Lemma document_survives_the_disk_witness :
  readDB_file (writeDB_file awkward) = Some (document awkward) /\
  store_of (document awkward) = Some (list_to_map awkward).
Proof.
  apply (document_survives_the_disk awkward).
  - apply awkward_nodup.
  - apply awkward_units.
Defined.

(** X13. The link callback's read, assignment and write, done on the
    file, is the insertion the handlers are modelled with: when the
    document on disk stands for the store of the world, writing it back
    with [db[slug]] set to the record of a create that got its link, and
    reading it again, gives exactly the store that the create leaves. *)
Theorem create_commit_through_the_file
    (e : env) (c : chance) (req : request) (link : jsstring)
    (entries : list (jsstring * paste)) (w : world) :
  NoDup (map fst entries) -> entries_units entries ->
  db_file w = list_to_map entries ->
  optional_units (body_filename req) -> optional_units (body_language req) ->
  bytes (randomBytes c) -> units (date c) -> units link ->
  upload_err c = None -> link_res c = inr link ->
  NoDup (map fst (assign entries (slug_of c) (record_of c req link))) /\
  (v ← readDB_file
         (writeDB_file (assign entries (slug_of c) (record_of c req link)));
   store_of v) =
  Some (db_file (after (create e c req w))).
Proof.
  intros Hnd Hunits Hdb Hf Hl Hb Hd Hlink Hup Hres.
  destruct (created_record_units c req link Hf Hl Hb Hd Hlink) as [Hslug Hrec].
  split; [apply assign_nodup; assumption |].
  rewrite disk_roundtrip
    by first [apply assign_nodup; assumption | apply assign_units; assumption].
  cbn [mbind option_bind]. rewrite store_of_document.
  rewrite assign_insert by assumption.
  rewrite (create_linked e c req w link Hup Hres).
  unfold after; cbn [fst snd db_file]. rewrite Hdb. reflexivity.
Qed.

Lemma create_commit_through_the_file_witness :
  NoDup (map fst (assign awkward (slug_of (elsewhere second_link))
                    (record_of (elsewhere second_link) script second_link))) /\
  (v ← readDB_file
         (writeDB_file
            (assign awkward (slug_of (elsewhere second_link))
               (record_of (elsewhere second_link) script second_link)));
   store_of v) =
  Some (db_file (after (create local (elsewhere second_link) script kept))).
Proof.
  apply (create_commit_through_the_file local (elsewhere second_link) script
           second_link awkward kept).
  - apply awkward_nodup.
  - apply awkward_units.
  - reflexivity.
  - apply units_check. reflexivity.
  - apply units_check. reflexivity.
  - unfold bytes. cbn. repeat constructor; lia.
  - apply units_check. reflexivity.
  - apply units_check. reflexivity.
  - reflexivity.
  - reflexivity.
Defined.




Module MoreFacts.
Import JS Text Server Facts Reach TrimFacts.

Lemma trim_start_fixed (s : jsstring) :
  (forall c, head s = Some c -> is_space c = false) -> trim_start s = s.
Proof.
  destruct s as [| c r]; [reflexivity |]. intros H.
  cbn [trim_start]. rewrite (H c eq_refl). reflexivity.
Qed.

Lemma head_rev (s : jsstring) : head (rev s) = last s.
Proof. rewrite rev_alt. apply (head_reverse s). Qed.

(** [trim] changes nothing in a string that neither begins nor ends
    with a blank. *)
Lemma trim_fixed (s : jsstring) :
  (forall c, head s = Some c -> is_space c = false) ->
  (forall c, last s = Some c -> is_space c = false) ->
  trim s = s.
Proof.
  intros Hh Hl. unfold trim, trim_end.
  rewrite (trim_start_fixed s Hh).
  rewrite trim_start_fixed; [apply rev_involutive |].
  intros c Hc. rewrite head_rev in Hc. apply Hl. assumption.
Qed.

(** A request that does not commit leaves the store and the links as
    they were. *)
Lemma handle_unseen e c k w :
  commits (c, k) = false -> seen (after (handle e c k w)) = seen w.
Proof.
  unfold commits, seen. cbn [fst snd]. intros Hc.
  destruct k as [req | s | s]; cbn [handle];
    [| rewrite view_after; reflexivity | rewrite raw_after; reflexivity].
  destruct (create_cases c)
    as [[link [Hup Hl]] | [[err Hup] | [err [Hup Hl]]]].
  - rewrite Hup, Hl in Hc. discriminate.
  - rewrite (create_upload_failed e c req w err Hup). reflexivity.
  - rewrite (create_link_failed e c req w err Hup Hl). reflexivity.
Qed.

(** What a request leaves to be seen depends only on what it saw. *)
Lemma handle_seen e c k w1 w2 :
  seen w1 = seen w2 ->
  seen (after (handle e c k w1)) = seen (after (handle e c k w2)).
Proof.
  unfold seen. intros Hs. injection Hs as Hdb Hlinks.
  destruct k as [req | s | s]; cbn [handle];
    [| rewrite !view_after; congruence | rewrite !raw_after; congruence].
  destruct (create_cases c)
    as [[link [Hup Hl]] | [[err Hup] | [err [Hup Hl]]]].
  - rewrite !(create_linked e c req _ link Hup Hl).
    unfold after; cbn [fst snd db_file mega_links]. congruence.
  - rewrite !(create_upload_failed e c req _ err Hup). unfold after; cbn.
    congruence.
  - rewrite !(create_link_failed e c req _ err Hup Hl). unfold after; cbn.
    congruence.
Qed.

Lemma serve_commits e ks :
  forall w1 w2,
    seen w1 = seen w2 ->
    seen (serve e (List.filter commits ks) w1).2 = seen (serve e ks w2).2.
Proof.
  induction ks as [| [c k] ks IH]; intros w1 w2 Hs; [exact Hs |].
  cbn [List.filter]. destruct (commits (c, k)) eqn:Hc.
  - cbn [serve].
    destruct (serve e (List.filter commits ks) (after (handle e c k w1)))
      as [rs1 w1'] eqn:H1.
    destruct (serve e ks (after (handle e c k w2))) as [rs2 w2'] eqn:H2.
    cbn [snd].
    specialize (IH _ _ (handle_seen e c k w1 w2 Hs)).
    rewrite H1, H2 in IH. exact IH.
  - cbn [serve].
    destruct (serve e ks (after (handle e c k w2))) as [rs2 w2'] eqn:H2.
    cbn [snd].
    assert (Hs' : seen w1 = seen (after (handle e c k w2)))
      by (rewrite (handle_unseen e c k w2 Hc); exact Hs).
    specialize (IH _ _ Hs'). rewrite H2 in IH. exact IH.
Qed.

End MoreFacts.

Import MoreFacts.

(** X15. A filename the handler took once is taken unchanged when it
    is given again: trimming it a second time changes nothing, so the
    same name is uploaded and stored. *)
Theorem taken_filename_is_stable
    (c : chance) (req req' : request) (f : jsstring) :
  filenameProvided req = Some f ->
  body_filename req' = Some f ->
  filenameProvided req' = Some f /\ filename_of c req' = f.
Proof.
  intros Htaken Hgiven.
  assert (Hf : f <> [] /\ trim f = f).
  { unfold filenameProvided in Htaken.
    destruct (body_filename req) as [given |]; [| discriminate].
    destruct (truthy given && truthy (trim given)) eqn:Ht; [| discriminate].
    injection Htaken as <-.
    apply andb_true_iff in Ht as [_ Ht].
    destruct (trim_split given) as [pre [post [_ [_ [_ [Hh Hl]]]]]].
    split; [destruct (trim given); [discriminate | discriminate] |].
    apply trim_fixed; assumption. }
  destruct Hf as [Hne Hfix].
  assert (Hp : filenameProvided req' = Some f).
  { unfold filenameProvided. rewrite Hgiven, Hfix.
    destruct f; [contradiction | reflexivity]. }
  split; [assumption |].
  unfold filename_of. rewrite Hp. cbn [or_else].
  destruct f; [contradiction | reflexivity].
Qed.

Lemma taken_filename_is_stable_witness :
  filenameProvided renamed = Some (lit "notes v2.txt") /\
  filename_of (lucky first_link) renamed = lit "notes v2.txt".
Proof.
  apply (taken_filename_is_stable (lucky first_link) padded renamed
           (lit "notes v2.txt")); reflexivity.
Defined.

(** X16. Only a create that gets its link leaves a mark: dropping
    from a sequence of requests every view, every raw fetch and every
    create whose upload or link failed changes neither the store nor the
    links that the sequence leaves behind. *)
Theorem only_commits_leave_a_mark
    (e : env) (ks : list (chance * call)) (w : world) :
  db_file (serve e (List.filter commits ks) w).2 = db_file (serve e ks w).2 /\
  mega_links (serve e (List.filter commits ks) w).2 =
    mega_links (serve e ks w).2.
Proof.
  pose proof (serve_commits e ks w w eq_refl) as H.
  unfold seen in H. injection H as Hdb Hlinks. split; assumption.
Qed.
